(** * skyux2: autocomplete and infinite-scroll interaction logic

    A shallow embedding of
      - [src/modules/autocomplete/autocomplete.component.ts]
        (class SkyAutocompleteComponent), and
      - the infinite-scroll component (class SkyInfiniteScrollComponent),
    together with the properties the specification states about them.

    The TypeScript classes are modelled as records holding the fields of
    [this]; a method is a function from the component to the component it
    leaves behind, the messages it sent to its collaborators, and how it
    completed (normally, or by a thrown exception). *)

From Stdlib Require Import ZArith Ascii.
From stdpp Require Import base list strings gmap pretty.

Local Open Scope Z_scope.

(** ** The fragment of JavaScript the two components rely on *)

Module JS.

(** [Number.isSafeInteger]: the integers every one of which a number
    holds exactly. *)
Definition isSafeInteger (n : Z) : bool :=
  (- 9007199254740991 <=? n) && (n <=? 9007199254740991).

(** The numbers of the model are the safe integers; on them
    [Number.prototype.toString] is the decimal numeral.  Fractions, NaN,
    the infinities and integers past the safe range are not values of this
    type. *)
Record number := Number {
  integer : Z;
  integer_safe : Is_true (isSafeInteger integer)
}.

#[export] Instance number_eq_dec : EqDecision number.
Proof.
  intros [a Ha] [b Hb]. destruct (decide (a = b)) as [Hab|Hab].
  - left. subst b. f_equal. apply proof_irrel.
  - right. intros H. apply Hab. by injection H.
Defined.

(** The values found in the fields of a result record.  [VObject] stands
    for an object, an array or a function; what the components ask of one
    is the text its [toString()] gives, which is all the model keeps of it
    (so two objects of the same text are not told apart; the components
    never compare two objects). *)
Inductive value :=
| VUndefined
| VNull
| VBool (b : bool)
| VNum (n : number)
| VStr (s : string)
| VObject (text : string).

#[export] Instance value_eq_dec : EqDecision value.
Proof. solve_decision. Defined.

(** [a === b], for a string [a] at least. *)
Definition strictEquals (a b : value) : bool := bool_decide (a = b).

(** A plain object, given by its own properties; its prototype is
    [Object.prototype]. *)
Abbreviation object := (gmap string value).

(** The text of a built-in function, as V8 prints it. *)
Definition nativeFunction (name : string) : value :=
  VObject ("function " +:+ name +:+ "() { [native code] }").

(** What a plain object inherits: the properties of [Object.prototype].
    [__proto__] reads as [Object.prototype] itself, whose text is
    [[object Object]]. *)
Definition objectPrototype : object :=
  list_to_map
    [ ("constructor", nativeFunction "Object");
      ("__defineGetter__", nativeFunction "__defineGetter__");
      ("__defineSetter__", nativeFunction "__defineSetter__");
      ("hasOwnProperty", nativeFunction "hasOwnProperty");
      ("__lookupGetter__", nativeFunction "__lookupGetter__");
      ("__lookupSetter__", nativeFunction "__lookupSetter__");
      ("isPrototypeOf", nativeFunction "isPrototypeOf");
      ("propertyIsEnumerable", nativeFunction "propertyIsEnumerable");
      ("toString", nativeFunction "toString");
      ("valueOf", nativeFunction "valueOf");
      ("__proto__", VObject "[object Object]");
      ("toLocaleString", nativeFunction "toLocaleString") ].

(** [o[p]]: an own property, else an inherited one, else [undefined]. *)
Definition get (o : object) (p : string) : value :=
  match o !! p with
  | Some v => v
  | None => default VUndefined (objectPrototype !! p)
  end.

(** ToBoolean. *)
Definition truthy (v : value) : bool :=
  match v with
  | VUndefined | VNull => false
  | VBool b => b
  | VNum n => negb (integer n =? 0)
  | VStr s => negb (bool_decide (s = EmptyString))
  | VObject _ => true
  end.

(** [a || b] *)
Definition or (a b : value) : value := if truthy a then a else b.

(** [v.toString()].  The method call raises a TypeError on [undefined] and
    [null]; the components only call it behind [|| ''], which never yields
    either (lemma [or_str_defined]), so those two cases are never reached. *)
Definition toString (v : value) : string :=
  match v with
  | VUndefined => "undefined"
  | VNull => "null"
  | VBool true => "true"
  | VBool false => "false"
  | VNum n => pretty (integer n)
  | VStr s => s
  | VObject text => text
  end.

(** Characters are the code units 0..255. *)
Definition lowerChar (c : ascii) : ascii :=
  let n := N_of_ascii c in
  if ((65 <=? n) && (n <=? 90))%N then ascii_of_N (n + 32)
  else if ((192 <=? n) && (n <=? 222) && negb (n =? 215))%N
       then ascii_of_N (n + 32)
  else c.

(** [s.toLowerCase()] *)
Fixpoint toLowerCase (s : string) : string :=
  match s with
  | EmptyString => EmptyString
  | String c s' => String (lowerChar c) (toLowerCase s')
  end.

(** [s] begins with [p]. *)
Fixpoint startsWith (p s : string) : bool :=
  match p, s with
  | EmptyString, _ => true
  | String a p', String b s' => bool_decide (a = b) && startsWith p' s'
  | String _ _, EmptyString => false
  end.

Fixpoint indexOfFrom (s sub : string) (i : Z) : Z :=
  if startsWith sub s then i
  else match s with
       | EmptyString => -1
       | String _ s' => indexOfFrom s' sub (i + 1)
       end.

(** [s.indexOf(sub)]: position of the first occurrence, [-1] if none. *)
Definition indexOf (s sub : string) : Z := indexOfFrom s sub 0.

(** The class [\s] of regular expressions, which is also what [trim]
    strips: tab, line feed, vertical tab, form feed, carriage return,
    space, no-break space. *)
Definition isSpace (c : ascii) : bool :=
  let n := N_of_ascii c in
  (((9 <=? n) && (n <=? 13)) || (n =? 32) || (n =? 160))%N.

Fixpoint allSpace (s : string) : bool :=
  match s with
  | EmptyString => true
  | String c s' => isSpace c && allSpace s'
  end.

(** [s.match(/^\s+$/)] as a condition: one or more characters, all of
    them white space. *)
Definition matchesOnlySpace (s : string) : bool :=
  match s with
  | EmptyString => false
  | String _ _ => allSpace s
  end.

Fixpoint trimStart (s : string) : string :=
  match s with
  | EmptyString => EmptyString
  | String c s' => if isSpace c then trimStart s' else s
  end.

Fixpoint trimEnd (s : string) : string :=
  match s with
  | EmptyString => EmptyString
  | String c s' =>
      match trimEnd s' with
      | EmptyString => if isSpace c then EmptyString else String c EmptyString
      | t => String c t
      end
  end.

(** [s.trim()] *)
Definition trim (s : string) : string := trimEnd (trimStart s).

(** [s.length] *)
Definition strlen (s : string) : Z := Z.of_nat (String.length s).

(** [sub] occurs in [s]. *)
Definition contains (s sub : string) : Prop :=
  exists pre post, s = pre +:+ sub +:+ post.

(** [s] is empty or has white space only. *)
Definition blank (s : string) : Prop :=
  Forall (fun ch => isSpace ch = true) (String.list_ascii_of_string s).


(** Reading a numeric property gives [None] where the object has no such
    property ([undefined]); [undefined] makes a sum NaN, and every
    comparison with NaN is false. *)
Definition add (a b : option Z) : option Z :=
  match a, b with
  | Some x, Some y => Some (x + y)
  | _, _ => None
  end.

Definition gt (a b : option Z) : bool :=
  match a, b with
  | Some x, Some y => y <? x
  | _, _ => false
  end.

Definition le (a b : option Z) : bool :=
  match a, b with
  | Some x, Some y => x <=? y
  | _, _ => false
  end.

End JS.

(** ** The autocomplete component *)

Module Autocomplete.
Import JS.

(** A result record ([any] in the source): a plain object. *)
Abbreviation record := (gmap string JS.value).

(** [SkyDropdownMessageType], the kinds of message the dropdown accepts. *)
Inductive SkyDropdownMessageType :=
| Open
| Close
| FocusNextItem
| FocusPreviousItem.

(** What a search function hands back: an array, or a promise of one
    (identified by a number; it is settled by the caller's code). *)
Inductive SkyAutocompleteSearchResponse :=
| ResponseArray (results : list record)
| ResponsePromise (id : nat).

(** The promise [performSearch] returns. *)
Inductive Promise :=
| Resolved (results : list record)
| Foreign (id : nat).

(** The bound input, [SkyAutocompleteInputDirective], as far as the
    component touches it. *)
Record SkyAutocompleteInputDirective := {
  value : option record;
  directiveDescriptorProperty : string
}.

(** The fields of [this]. *)
Record SkyAutocompleteComponent := {
  (** the [search] input; [None] when it was left at its default,
      [this.defaultSearchFunction] *)
  search : option (string -> SkyAutocompleteSearchResponse);
  data : list record;
  propertiesToSearch : list string;
  (** [None] is [undefined], the value of the input when it is not bound *)
  searchResultsLimit : option Z;
  descriptorProperty : string;
  searchTextMinimumCharacters : Z;
  inputDirective : option SkyAutocompleteInputDirective;
  (** [None] is [undefined], the value before the first assignment *)
  searchResults : option (list record);
  searchText : JS.value;
  isMouseEnter : bool;
  searchResultsIndex : nat
}.

Definition set_searchResults (l : list record) (c : SkyAutocompleteComponent) :=
  {| search := search c; data := data c;
     propertiesToSearch := propertiesToSearch c;
     searchResultsLimit := searchResultsLimit c;
     descriptorProperty := descriptorProperty c;
     searchTextMinimumCharacters := searchTextMinimumCharacters c;
     inputDirective := inputDirective c;
     searchResults := Some l;
     searchText := searchText c;
     isMouseEnter := isMouseEnter c;
     searchResultsIndex := searchResultsIndex c |}.

Definition set_searchText (v : JS.value) (c : SkyAutocompleteComponent) :=
  {| search := search c; data := data c;
     propertiesToSearch := propertiesToSearch c;
     searchResultsLimit := searchResultsLimit c;
     descriptorProperty := descriptorProperty c;
     searchTextMinimumCharacters := searchTextMinimumCharacters c;
     inputDirective := inputDirective c;
     searchResults := searchResults c;
     searchText := v;
     isMouseEnter := isMouseEnter c;
     searchResultsIndex := searchResultsIndex c |}.


Definition set_searchResultsIndex (i : nat) (c : SkyAutocompleteComponent) :=
  {| search := search c; data := data c;
     propertiesToSearch := propertiesToSearch c;
     searchResultsLimit := searchResultsLimit c;
     descriptorProperty := descriptorProperty c;
     searchTextMinimumCharacters := searchTextMinimumCharacters c;
     inputDirective := inputDirective c;
     searchResults := searchResults c;
     searchText := searchText c;
     isMouseEnter := isMouseEnter c;
     searchResultsIndex := i |}.

Definition set_inputDirective (d : SkyAutocompleteInputDirective)
    (c : SkyAutocompleteComponent) :=
  {| search := search c; data := data c;
     propertiesToSearch := propertiesToSearch c;
     searchResultsLimit := searchResultsLimit c;
     descriptorProperty := descriptorProperty c;
     searchTextMinimumCharacters := searchTextMinimumCharacters c;
     inputDirective := Some d;
     searchResults := searchResults c;
     searchText := searchText c;
     isMouseEnter := isMouseEnter c;
     searchResultsIndex := searchResultsIndex c |}.

(** *** Messages to the collaborators *)

Inductive effect :=
| DropdownMessage (type : SkyDropdownMessageType)
    (* dropdownMessageStream.next({ type }) *)
| MarkForCheck
    (* changeDetector.markForCheck() *)
| SelectionChange (searchResult : record)
    (* selectionChange.emit({ searchResult }) *)
| SearchTextChangeSubscribe
    (* inputDirective.searchTextChange.subscribe(...) *)
| SearchCall (searchText : string)
    (* this.search(searchText) *)
| Then (p : Promise)
    (* p.then(results => ...) *)
| PreventDefault
| StopPropagation.

Inductive exn :=
| MissingInputError
    (* Error: The SkyAutocompleteComponent requires a TemplateChild input
       or textarea bound with the SkyAutocomplete directive. ... *)
| TypeError.

Inductive completion (A : Type) :=
| Return (a : A)
| Throw (e : exn).
Arguments Return {A} a.
Arguments Throw {A} e.

(** A method body: it runs on [this], and leaves the component, the
    messages sent in order, and its completion. *)
Definition M (A : Type) : Type :=
  SkyAutocompleteComponent ->
  completion A * SkyAutocompleteComponent * list effect.

Definition ret {A} (a : A) : M A := fun c => (Return a, c, []).

Definition bind {A B} (m : M A) (f : A -> M B) : M B :=
  fun c =>
    match m c with
    | (Return a, c1, l1) =>
        let '(r, c2, l2) := f a c1 in (r, c2, l1 ++ l2)
    | (Throw e, c1, l1) => (Throw e, c1, l1)
    end.

Definition throw {A} (e : exn) : M A := fun c => (Throw e, c, []).
Definition emit (e : effect) : M unit := fun c => (Return tt, c, [e]).
Definition read {A} (f : SkyAutocompleteComponent -> A) : M A :=
  fun c => (Return (f c), c, []).
Definition modify (f : SkyAutocompleteComponent -> SkyAutocompleteComponent)
    : M unit :=
  fun c => (Return tt, f c, []).

#[export] Instance M_ret : MRet M := @ret.
#[export] Instance M_bind : MBind M := fun A B f m => bind m f.

Definition when (b : bool) (m : M unit) : M unit :=
  if b then m else ret tt.

(** *** The default search *)

(** [this.searchResultsLimit && this.searchResultsLimit <= results.length],
    as a condition: an unbound ([undefined]) or zero limit is falsy. *)
Definition limitReached (limit : option Z) (results : list record) : bool :=
  match limit with
  | None => false
  | Some n => negb (n =? 0) && (n <=? Z.of_nat (length results))
  end.

(** The callback given to [find]. *)
Definition propertyMatches (searchTextLower : string) (result : record)
    (property : string) : bool :=
  let value :=
    toLowerCase (toString (or (get result property) (VStr EmptyString))) in
  indexOf value searchTextLower >? -1.

(** [isMatch], as the condition of [if (isMatch)]: [find] gives back the
    matching property name, or [undefined]; a name is truthy when it is not
    the empty string. *)
Definition isMatch (properties : list string) (searchTextLower : string)
    (result : record) : bool :=
  match List.find (propertyMatches searchTextLower result) properties with
  | Some property => truthy (VStr property)
  | None => false
  end.

(** The [for] loop over [this.data], from index [i] on: [rest] is
    [data[i..]], [results] the array built so far.  [visited] records the
    records the loop body got to evaluate. *)
Fixpoint defaultSearchLoop (properties : list string) (limit : option Z)
    (searchTextLower : string) (rest results visited : list record)
    : list record * list record :=
  match rest with
  | [] => (results, visited)
  | result :: rest' =>
      if limitReached limit results then (results, visited)
      else
        defaultSearchLoop properties limit searchTextLower rest'
          (if isMatch properties searchTextLower result
           then results ++ [result] else results)
          (visited ++ [result])
  end.

Definition defaultSearchTrace (c : SkyAutocompleteComponent)
    (searchText : string) : list record * list record :=
  defaultSearchLoop (propertiesToSearch c) (searchResultsLimit c)
    (toLowerCase searchText) (data c) [] [].

Definition defaultSearchFunction (c : SkyAutocompleteComponent)
    (searchText : string) : list record :=
  fst (defaultSearchTrace c searchText).





(** *** Dropdown messages, selection *)

Definition sendDropdownMessage (type : SkyDropdownMessageType) : M unit :=
  emit (DropdownMessage type).

Definition notifySelectionChange (selection : record) : M unit :=
  emit (SelectionChange selection).

Definition openDropdown : M unit := sendDropdownMessage Open.

Definition closeDropdown : M unit :=
  modify (set_searchResults []);;
  sendDropdownMessage Close;;
  emit MarkForCheck.

Definition hasSearchResults (c : SkyAutocompleteComponent) : bool :=
  match searchResults c with
  | None => false
  | Some l => 0 <? Z.of_nat (length l)
  end.

(** [searchResults[searchResultsIndex]] is [undefined] past the end of the
    array, and reading a property of [undefined] raises a TypeError; so does
    assigning to a property of a missing input directive. *)
Definition selectActiveSearchResult : M unit :=
  has ← read hasSearchResults;
  when has (
    results ← read (fun c => default [] (searchResults c));
    index ← read searchResultsIndex;
    match results !! index with
    | None => throw TypeError
    | Some result =>
        descriptor ← read descriptorProperty;
        modify (set_searchText (get result descriptor));;
        directive ← read inputDirective;
        match directive with
        | None => throw TypeError
        | Some d =>
            modify (set_inputDirective
                      {| value := Some result;
                         directiveDescriptorProperty :=
                           directiveDescriptorProperty d |});;
            notifySelectionChange result;;
            closeDropdown
        end
    end).

Definition onSearchResultClick (index : nat) : M unit :=
  modify (set_searchResultsIndex index);;
  selectActiveSearchResult.




(** [event.key] is all the handler reads of the keyboard event. *)
Definition handleKeyDown (eventKey : string) : M unit :=
  let key := toLowerCase eventKey in
  if bool_decide (key = "arrowdown") then
    sendDropdownMessage FocusNextItem ;; emit PreventDefault
  else if bool_decide (key = "arrowup") then
    sendDropdownMessage FocusPreviousItem ;; emit PreventDefault
  else if bool_decide (key = "tab") || bool_decide (key = "enter") then
    has ← read hasSearchResults;
    when has (selectActiveSearchResult ;; emit PreventDefault)
  else if bool_decide (key = "escape") then
    closeDropdown ;; emit PreventDefault ;; emit StopPropagation
  else ret tt.

(** *** Searching *)

Definition performSearch (searchText : string) : M Promise :=
  emit (SearchCall searchText);;
  custom ← read search;
  searchResult ←
    match custom with
    | None =>
        this ← read id;
        ret (ResponseArray (defaultSearchFunction this searchText))
    | Some f => ret (f searchText)
    end;
  match searchResult with
  | ResponseArray results => ret (Resolved results)
  | ResponsePromise p => ret (Foreign p)
  end.

(** The callback given to [then]; it runs when the promise is fulfilled,
    with the array it is fulfilled with. *)
Definition searchFulfilled (results : list record) : M unit :=
  modify (set_searchResults results);;
  openDropdown;;
  emit MarkForCheck.

(** [searchTextChanged(searchText = '')]: [None] is a call without the
    argument (or with [undefined]). *)
Definition searchTextChanged (arg : option string) : M unit :=
  let searchText := default EmptyString arg in
  let isSearchTextEmpty :=
    negb (truthy (VStr searchText)) || matchesOnlySpace searchText in
  if isSearchTextEmpty then
    modify (set_searchText (VStr EmptyString));;
    closeDropdown
  else
    minimum ← read searchTextMinimumCharacters;
    previous ← read Autocomplete.searchText;
    let isSearchTextLongEnough := minimum <=? strlen searchText in
    let isSearchTextDifferent :=
      negb (strictEquals (VStr searchText) previous) in
    when (isSearchTextLongEnough && isSearchTextDifferent) (
      let searchText := trim searchText in
      modify (set_searchText (VStr searchText));;
      p ← performSearch searchText;
      emit (Then p)).

(** *** Set-up *)

Definition ngAfterContentInit : M unit :=
  directive ← read inputDirective;
  match directive with
  | None => throw MissingInputError
  | Some d =>
      descriptor ← read descriptorProperty;
      modify (set_inputDirective
                {| value := value d;
                   directiveDescriptorProperty := descriptor |});;
      emit SearchTextChangeSubscribe
  end.

End Autocomplete.

(** ** The infinite-scroll component *)

Module InfiniteScroll.

(** A DOM element, as far as the walk to the scrollable parent reads it:
    its [length] property (forms and selects have one, other elements read
    [undefined]), whether it is [document.body], its inline style
    [overflow-y], and its [parentElement] ([None] is [null]). *)
#[warnings="-register-all"] Inductive element :=
| Element (length : option Z) (isDocumentBody : bool) (overflowY : string)
          (parentElement : option element).

Definition elementLength (e : element) : option Z :=
  match e with Element l _ _ _ => l end.
Definition isDocumentBody (e : element) : bool :=
  match e with Element _ b _ _ => b end.
Definition overflowY (e : element) : string :=
  match e with Element _ _ o _ => o end.
Definition parentElement (e : element) : option element :=
  match e with Element _ _ _ p => p end.

(** The chain of ancestors, nearest first. *)
Fixpoint ancestors (e : element) : list element :=
  match e with
  | Element _ _ _ None => []
  | Element _ _ _ (Some p) => p :: ancestors p
  end.

(** The part of a chain up to [document.body], the body included. *)
Fixpoint upToBody (chain : list element) : list element :=
  match chain with
  | [] => []
  | x :: chain' => if isDocumentBody x then [x] else x :: upToBody chain'
  end.

(** The ancestors of [e] that lie on the way to [document.body]. *)
Definition candidates (e : element) : list element :=
  if isDocumentBody e then [] else upToBody (ancestors e).

(** What [scrollableParentEl] holds. *)
Inductive scrollable :=
| Window
| Parent (e : element).

Inductive result (A : Type) :=
| Ok (a : A)
| TypeError.
Arguments Ok {A} a.
Arguments TypeError {A}.

(** [parentEl.style['overflow-y'] === 'auto' || ... === 'scroll'] *)
Definition scrolls (e : element) : bool :=
  bool_decide (overflowY e = "auto") || bool_decide (overflowY e = "scroll").

(** [element.length <= 0 || element === document.body] *)
Definition stopsWalk (e : element) : bool :=
  JS.le (elementLength e) (Some 0) || isDocumentBody e.

(** The method takes the flag [scrollableParentIsWindow] as it is and gives
    back what it leaves in it.  Reading [style] of a [null] parent raises a
    TypeError. *)
Fixpoint getScrollableParent (element : element)
    (scrollableParentIsWindow : bool) : result (scrollable * bool) :=
  if stopsWalk element then Ok (Window, true)
  else
    match element with
    | Element _ _ _ None => TypeError
    | Element _ _ _ (Some parentEl) =>
        if scrolls parentEl then Ok (Parent parentEl, scrollableParentIsWindow)
        else getScrollableParent parentEl scrollableParentIsWindow
    end.

(** The layout figures an event handler reads when it runs. *)
Record Dom := {
  offsetTop : Z;          (* element.nativeElement.offsetTop *)
  windowScrollY : Z;      (* window.scrollY *)
  windowInnerHeight : Z;  (* window.innerHeight *)
  parentScrollTop : Z;    (* scrollTop of the scrollable parent element *)
  parentClientHeight : Z  (* clientHeight of the scrollable parent element *)
}.

Definition scrollY (v : scrollable) (d : Dom) : option Z :=
  match v with Window => Some (windowScrollY d) | Parent _ => None end.
Definition innerHeight (v : scrollable) (d : Dom) : option Z :=
  match v with Window => Some (windowInnerHeight d) | Parent _ => None end.
Definition scrollTop (v : scrollable) (d : Dom) : option Z :=
  match v with Window => None | Parent _ => Some (parentScrollTop d) end.
Definition clientHeight (v : scrollable) (d : Dom) : option Z :=
  match v with Window => None | Parent _ => Some (parentClientHeight d) end.

(** The fields of [this], once [ngOnInit] has run. *)
Record SkyInfiniteScrollComponent := {
  hasMore : bool;
  isLoading : bool;       (* isLoading.value *)
  elementPosition : Z;
  scrollableParentEl : scrollable;
  scrollableParentIsWindow : bool
}.

Inductive signal :=
| IsLoadingNext (b : bool)   (* isLoading.next(b) *)
| OnLoadEmit.                (* onLoad.emit([]) *)

(** [ngOnInit], on a component whose [hasMore] input holds [more]; the two
    listeners it installs are [startInfiniteScrollLoad] and
    [onDOMNodeInserted] below. *)
Definition ngOnInit (more : bool) (nativeElement : element) (d : Dom)
    : result SkyInfiniteScrollComponent :=
  match getScrollableParent nativeElement false with
  | TypeError => TypeError
  | Ok (parent, isWindow) =>
      Ok {| hasMore := more;
            isLoading := false;
            elementPosition := offsetTop d;
            scrollableParentEl := parent;
            scrollableParentIsWindow := isWindow |}
  end.

Definition infiniteScrollInView (c : SkyInfiniteScrollComponent) (d : Dom)
    : bool :=
  if scrollableParentIsWindow c then
    JS.gt (JS.add (scrollY (scrollableParentEl c) d)
                  (innerHeight (scrollableParentEl c) d))
          (Some (offsetTop d))
  else
    JS.gt (JS.add (scrollTop (scrollableParentEl c) d)
                  (clientHeight (scrollableParentEl c) d))
          (Some (offsetTop d)).

Definition set_isLoading (b : bool) (c : SkyInfiniteScrollComponent) :=
  {| hasMore := hasMore c;
     isLoading := b;
     elementPosition := elementPosition c;
     scrollableParentEl := scrollableParentEl c;
     scrollableParentIsWindow := scrollableParentIsWindow c |}.

Definition set_elementPosition (z : Z) (c : SkyInfiniteScrollComponent) :=
  {| hasMore := hasMore c;
     isLoading := isLoading c;
     elementPosition := z;
     scrollableParentEl := scrollableParentEl c;
     scrollableParentIsWindow := scrollableParentIsWindow c |}.

Definition set_hasMore (b : bool) (c : SkyInfiniteScrollComponent) :=
  {| hasMore := b;
     isLoading := isLoading c;
     elementPosition := elementPosition c;
     scrollableParentEl := scrollableParentEl c;
     scrollableParentIsWindow := scrollableParentIsWindow c |}.

(** The listener on [scroll]. *)
Definition startInfiniteScrollLoad (c : SkyInfiniteScrollComponent) (d : Dom)
    : SkyInfiniteScrollComponent * list signal :=
  if hasMore c && negb (isLoading c) && infiniteScrollInView c d then
    (set_isLoading true c, [IsLoadingNext true; OnLoadEmit])
  else if isLoading c && negb (offsetTop d =? elementPosition c) then
    (set_isLoading false (set_elementPosition (offsetTop d) c),
     [IsLoadingNext false])
  else (c, []).

(** The listener on [DOMNodeInserted]. *)
Definition onDOMNodeInserted (c : SkyInfiniteScrollComponent) (d : Dom)
    : SkyInfiniteScrollComponent * list signal :=
  if isLoading c && negb (offsetTop d =? elementPosition c) then
    (set_isLoading false (set_elementPosition (offsetTop d) c),
     [IsLoadingNext false])
  else (c, []).

(** What can happen to the component after [ngOnInit]. *)
Inductive event :=
| Scroll (d : Dom)
| DOMNodeInserted (d : Dom)
| HasMoreInput (b : bool).

Definition handle (c : SkyInfiniteScrollComponent) (e : event)
    : SkyInfiniteScrollComponent * list signal :=
  match e with
  | Scroll d => startInfiniteScrollLoad c d
  | DOMNodeInserted d => onDOMNodeInserted c d
  | HasMoreInput b => (set_hasMore b c, [])
  end.

Fixpoint run (c : SkyInfiniteScrollComponent) (es : list event)
    : SkyInfiniteScrollComponent * list signal :=
  match es with
  | [] => (c, [])
  | e :: es' =>
      let '(c1, out1) := handle c e in
      let '(c2, out2) := run c1 es' in
      (c2, out1 ++ out2)
  end.

(** Load requests that are outstanding after the signals [out]: those
    emitted since the loading flag was last cleared. *)
Definition outstandingStep (n : nat) (s : signal) : nat :=
  match s with
  | OnLoadEmit => S n
  | IsLoadingNext false => 0%nat
  | IsLoadingNext true => n
  end.

Definition outstanding (out : list signal) : nat :=
  fold_left outstandingStep out 0%nat.

(** The count of outstanding requests goes with the loading flag. *)
Definition inStep (c : SkyInfiniteScrollComponent) (out : list signal)
    : Prop :=
  outstanding out = if isLoading c then 1%nat else 0%nat.

End InfiniteScroll.

(** ** Concrete components used in the examples below *)

Module Fixtures.
Import JS Autocomplete.

Definition ann : record := {[ "name" := VStr "Ann" ]}.
Definition anna : record := {[ "name" := VStr "Anna" ]}.
Definition bob : record := {[ "name" := VStr "Bob" ]}.

(** A component as the class initialises it, with the given inputs. *)
Definition component (records : list record) (properties : list string)
    (limit : option Z) : SkyAutocompleteComponent :=
  {| search := None;
     data := records;
     propertiesToSearch := properties;
     searchResultsLimit := limit;
     descriptorProperty := "name";
     searchTextMinimumCharacters := 1;
     inputDirective := None;
     searchResults := None;
     searchText := VUndefined;
     isMouseEnter := false;
     searchResultsIndex := 0%nat |}.

(** The data set of the specification, limited to two results. *)
Definition annAnnaBob : SkyAutocompleteComponent :=
  component [ann; anna; bob] ["name"] (Some 2).


Definition boundInput : SkyAutocompleteInputDirective :=
  {| value := None; directiveDescriptorProperty := "name" |}.

(** A component after set-up, showing two results with the second one
    active. *)
Definition showingResults : SkyAutocompleteComponent :=
  {| search := None;
     data := [ann; anna; bob];
     propertiesToSearch := ["name"];
     searchResultsLimit := Some 2;
     descriptorProperty := "name";
     searchTextMinimumCharacters := 3;
     inputDirective := Some boundInput;
     searchResults := Some [ann; anna];
     searchText := VStr "an";
     isMouseEnter := false;
     searchResultsIndex := 1%nat |}.

End Fixtures.

Module ScrollFixtures.
Import InfiniteScroll.

Definition html : element := Element None false EmptyString None.
Definition body : element := Element None true EmptyString (Some html).
Definition scroller : element := Element None false "auto" (Some body).
Definition wrapper : element :=
  Element None false EmptyString (Some scroller).
(** a form without controls: its [length] is 0 *)
Definition emptyForm : element :=
  Element (Some 0) false EmptyString (Some scroller).

Definition triggerInWrapper : element :=
  Element None false EmptyString (Some wrapper).
Definition triggerInForm : element :=
  Element None false EmptyString (Some emptyForm).
Definition triggerInBody : element :=
  Element None false EmptyString (Some body).

(** Layout when [ngOnInit] runs: the trigger at the top. *)
Definition atInit : Dom :=
  {| offsetTop := 0; windowScrollY := 0; windowInnerHeight := 800;
     parentScrollTop := 0; parentClientHeight := 800 |}.

(** Layout later on: content above the trigger has pushed it to 500, which
    is inside the 800 the viewport shows. *)
Definition later : Dom :=
  {| offsetTop := 500; windowScrollY := 0; windowInnerHeight := 800;
     parentScrollTop := 0; parentClientHeight := 800 |}.

(** Layout once more content has arrived. *)
Definition grown : Dom :=
  {| offsetTop := 900; windowScrollY := 0; windowInnerHeight := 800;
     parentScrollTop := 200; parentClientHeight := 800 |}.

(** The component [ngOnInit] leaves for [triggerInBody] under [atInit]. *)
Definition windowed : SkyInfiniteScrollComponent :=
  {| hasMore := true; isLoading := false; elementPosition := 0;
     scrollableParentEl := Window; scrollableParentIsWindow := true |}.

(** A component that is loading, with position 500 on record. *)
Definition loading : SkyInfiniteScrollComponent :=
  {| hasMore := true; isLoading := true; elementPosition := 500;
     scrollableParentEl := Window; scrollableParentIsWindow := true |}.

End ScrollFixtures.

(** * Properties *)

(** ** Strings *)

Section Strings.
Import JS.

Lemma or_str_defined v s :
  or v (VStr s) <> VUndefined /\ or v (VStr s) <> VNull.
Proof.
  unfold or. destruct v as [| |[]|n|s'|t]; simpl; try done.
  - by destruct (integer n =? 0).
  - by case_bool_decide.
Qed.

Lemma startsWith_prefix p s :
  startsWith p s = true <-> exists post, s = p +:+ post.
Proof.
  revert s. induction p as [|a p IH]; intros s; simpl.
  - split; [intros _; by exists s | done].
  - destruct s as [|b s].
    + split; [done | intros [post H]; discriminate H].
    + rewrite andb_true_iff, bool_decide_eq_true, IH. split.
      * intros [-> [post ->]]. by exists post.
      * intros [post H]. injection H as -> ->. split; [done | by exists post].
Qed.

Lemma indexOfFrom_contains s sub i :
  0 <= i -> (indexOfFrom s sub i >? -1) = true <-> contains s sub.
Proof.
  revert i. induction s as [|c s IH]; intros i Hi; simpl.
  - destruct (startsWith sub EmptyString) eqn:E.
    + split; [intros _ | intros _; lia].
      apply startsWith_prefix in E as [post E]. by exists EmptyString, post.
    + split; [lia|]. intros [pre [post H]]. exfalso.
      destruct pre; [|discriminate H]. simpl in H.
      assert (startsWith sub EmptyString = true)
        by (apply startsWith_prefix; eauto).
      congruence.
  - destruct (startsWith sub (String c s)) eqn:E.
    + split; [intros _ | intros _; lia].
      apply startsWith_prefix in E as [post E]. by exists EmptyString, post.
    + rewrite IH by lia. split.
      * intros [pre [post ->]]. by exists (String c pre), post.
      * intros [pre [post H]]. destruct pre as [|c' pre].
        -- exfalso. simpl in H.
           assert (startsWith sub (String c s) = true)
             by (apply startsWith_prefix; eauto).
           congruence.
        -- injection H as -> ->. by exists pre, post.
Qed.

Lemma indexOf_contains s sub :
  (indexOf s sub >? -1) = true <-> contains s sub.
Proof. unfold indexOf. by apply indexOfFrom_contains. Qed.

Lemma allSpace_blank s : allSpace s = true <-> blank s.
Proof.
  unfold blank. induction s as [|c s IH]; simpl.
  - split; [constructor | done].
  - rewrite andb_true_iff, IH, Forall_cons. done.
Qed.

(** The test at the head of [searchTextChanged]. *)
Lemma isSearchTextEmpty_blank s :
  negb (truthy (VStr s)) || matchesOnlySpace s = true <-> blank s.
Proof.
  rewrite <- allSpace_blank. destruct s as [|c s]; simpl; [done|].
  done.
Qed.


End Strings.

(** ** The default search *)

Section DefaultSearch.
Import JS Autocomplete.

Variable properties : list string.
Variable limit : option Z.




(** The loop walks a prefix of what is left of the data, keeps the matches
    of that prefix, leaves the rest only when the limit is reached, and
    never looks at a record once it is. *)
Lemma defaultSearchLoop_trace q rest results visited :
  exists seen unseen,
    rest = seen ++ unseen /\
    defaultSearchLoop properties limit q rest results visited =
      (results ++ List.filter (isMatch properties q) seen, visited ++ seen) /\
    (unseen <> [] ->
     limitReached limit (results ++ List.filter (isMatch properties q) seen)
       = true) /\
    (forall before r after, seen = before ++ r :: after ->
     limitReached limit (results ++ List.filter (isMatch properties q) before)
       = false).
Proof.
  revert results visited.
  induction rest as [|r rest' IH]; intros results visited.
  - exists [], []. simpl. rewrite !app_nil_r. repeat split; [done|].
    intros [|? ?] ? ? ?; done.
  - simpl. destruct (limitReached limit results) eqn:Hlim.
    + exists [], (r :: rest'). simpl. rewrite !app_nil_r.
      repeat split; [done|]. intros [|? ?] ? ? ?; done.
    + destruct (IH (if isMatch properties q r then results ++ [r] else results)
                   (visited ++ [r]))
        as (seen & unseen & -> & Hrun & Hstop & Hgo).
      assert (Hshift : forall l,
        (if isMatch properties q r then results ++ [r] else results)
          ++ List.filter (isMatch properties q) l
        = results ++ List.filter (isMatch properties q) (r :: l)).
      { intros l. simpl. destruct (isMatch properties q r); [|done].
        by rewrite <- app_assoc. }
      exists (r :: seen), unseen. rewrite Hrun, Hshift, <- app_assoc.
      repeat split; [by rewrite <- Hshift|].
      intros [|r' before] x after Heq.
      * simpl. by rewrite app_nil_r.
      * injection Heq as -> ->. rewrite <- Hshift. eapply Hgo. done.
Qed.

Lemma defaultSearchLoop_results q rest results visited :
  fst (defaultSearchLoop properties limit q rest results visited) =
  match limit with
  | None => results ++ List.filter (isMatch properties q) rest
  | Some n =>
      if n =? 0 then results ++ List.filter (isMatch properties q) rest
      else results ++ take (Z.to_nat n - length results)
                           (List.filter (isMatch properties q) rest)
  end.
Proof.
  revert results visited.
  induction rest as [|r rest' IH]; intros results visited; simpl.
  - destruct limit as [n|]; [destruct (n =? 0)|];
      by rewrite ?take_nil, app_nil_r.
  - unfold limitReached. destruct limit as [n|].
    + destruct (n =? 0) eqn:Hz; simpl.
      * rewrite IH. destruct (isMatch properties q r); [|done].
        by rewrite <- app_assoc.
      * destruct (n <=? Z.of_nat (length results)) eqn:Hle; simpl.
        -- apply Z.leb_le in Hle.
           replace (Z.to_nat n - length results)%nat with 0%nat by lia.
           by rewrite take_0, app_nil_r.
        -- apply Z.leb_gt in Hle. rewrite IH.
           destruct (isMatch properties q r); [|done].
           rewrite length_app. simpl.
           replace (Z.to_nat n - length results)%nat
             with (S (Z.to_nat n - (length results + 1)))%nat by lia.
           simpl. by rewrite <- app_assoc.
    + rewrite IH. destruct (isMatch properties q r); [|done].
      by rewrite <- app_assoc.
Qed.

End DefaultSearch.

Section DefaultSearchFunction.
Import JS Autocomplete Fixtures.

(** A field whose name is the empty string is never matched: [find] gives
    the name back, and the empty name is falsy. *)
Example defaultSearch_empty_property_name :
  defaultSearchFunction
    (component [ {[ EmptyString := VStr "Ann" ]} ] [EmptyString] None) "an"
  = [].
Proof. vm_compute. reflexivity. Qed.

(** A field holding the number zero reads as the empty text. *)
Example defaultSearch_zero_field :
  defaultSearchFunction
    (component [ {[ "name" := VNum (Number 0 I) ]} ] ["name"] None) "0"
    = [] /\
  defaultSearchFunction
    (component [ {[ "name" := VNum (Number 10 I) ]} ] ["name"] None) "0"
    = [ {[ "name" := VNum (Number 10 I) ]} ].
Proof. split; vm_compute; reflexivity. Qed.

(** A field the record does not have itself is read from
    [Object.prototype]: every plain record has a [constructor], whose text
    contains [object]. *)
Example defaultSearch_inherited_property :
  defaultSearchFunction (component [ann; bob] ["constructor"] None) "object"
    = [ann; bob] /\
  defaultSearchFunction (component [ann; bob] ["missing"] None) "object"
    = [].
Proof. split; vm_compute; reflexivity. Qed.




End DefaultSearchFunction.

(** ** The autocomplete handlers *)

Section AutocompleteHandlers.
Import JS Autocomplete Fixtures.

Ltac run_method :=
  unfold mbind, M_bind, mret, M_ret, bind, ret, read, modify, emit, throw,
    when; simpl.

Lemma hasSearchResults_empty c :
  hasSearchResults c = false <-> default [] (searchResults c) = [].
Proof.
  unfold hasSearchResults. destruct (searchResults c) as [[|r l]|]; simpl;
    split; intros H; try done.
Qed.

Lemma selectActiveSearchResult_none c :
  default [] (searchResults c) = [] ->
  selectActiveSearchResult c = (Return tt, c, []).
Proof.
  intros H. apply hasSearchResults_empty in H.
  unfold selectActiveSearchResult. run_method. by rewrite H.
Qed.

Lemma selectActiveSearchResult_some c result d :
  default [] (searchResults c) !! searchResultsIndex c = Some result ->
  inputDirective c = Some d ->
  selectActiveSearchResult c =
    (Return tt,
     set_searchResults []
       (set_inputDirective
          {| value := Some result;
             directiveDescriptorProperty := directiveDescriptorProperty d |}
          (set_searchText (get result (descriptorProperty c)) c)),
     [SelectionChange result; DropdownMessage Close; MarkForCheck]).
Proof.
  intros Hres Hdir.
  assert (hasSearchResults c = true) as Hhas.
  { destruct (hasSearchResults c) eqn:E; [done|].
    apply hasSearchResults_empty in E. by rewrite E in Hres. }
  unfold selectActiveSearchResult. run_method.
  rewrite Hhas, Hres. simpl. rewrite Hdir. reflexivity.
Qed.

Lemma tab_or_enter key :
  toLowerCase key = "tab" \/ toLowerCase key = "enter" ->
  handleKeyDown key =
    (has ← read hasSearchResults;
     when has (selectActiveSearchResult ;; emit PreventDefault)).
Proof. intros [H|H]; unfold handleKeyDown; by rewrite H. Qed.

(** C3, as the specification words it, fails when the index points past
    the end of a list that is not empty.  Nothing resets the index when a
    search is fulfilled: with the second of two results active and a new
    list of one record, [searchResults] is not empty, yet the selection, and
    the enter key, raise a TypeError; no text is committed, no selection is
    announced, the results stay and [Close] is not sent. *)
Lemma selectActiveSearchResult_stale_index :
  searchFulfilled [bob] showingResults =
    (Return tt, set_searchResults [bob] showingResults,
     [DropdownMessage Open; MarkForCheck]) /\
  searchResults (set_searchResults [bob] showingResults) = Some [bob] /\
  searchResultsIndex (set_searchResults [bob] showingResults) = 1%nat /\
  selectActiveSearchResult (set_searchResults [bob] showingResults) =
    (Throw TypeError, set_searchResults [bob] showingResults, []) /\
  handleKeyDown "Enter" (set_searchResults [bob] showingResults) =
    (Throw TypeError, set_searchResults [bob] showingResults, []).
Proof. repeat split. Qed.

(** C3 (amended).  [selectActiveSearchResult] does nothing when there are
    no search results, and neither does a tab or enter key then.  When
    [searchResults[searchResultsIndex]] is a record and the input directive
    is there, it sets [searchText] to the record's descriptor property,
    stores the record in the input directive, emits the selection change
    carrying the record, and closes the dropdown: the results are emptied
    and [Close] is sent; nothing else of the component changes.  A tab or
    enter key does the same and prevents the default; a click on a result
    sets the index to that result and selects it. *)
Theorem selectActiveSearchResult_spec (c : SkyAutocompleteComponent) :
  (default [] (searchResults c) = [] ->
     selectActiveSearchResult c = (Return tt, c, []) /\
     forall key, toLowerCase key = "tab" \/ toLowerCase key = "enter" ->
                 handleKeyDown key c = (Return tt, c, [])) /\
  (forall result d,
     default [] (searchResults c) !! searchResultsIndex c = Some result ->
     inputDirective c = Some d ->
     let c' :=
       {| search := search c;
          data := data c;
          propertiesToSearch := propertiesToSearch c;
          searchResultsLimit := searchResultsLimit c;
          descriptorProperty := descriptorProperty c;
          searchTextMinimumCharacters := searchTextMinimumCharacters c;
          inputDirective :=
            Some {| value := Some result;
                    directiveDescriptorProperty :=
                      directiveDescriptorProperty d |};
          searchResults := Some [];
          searchText := get result (descriptorProperty c);
          isMouseEnter := isMouseEnter c;
          searchResultsIndex := searchResultsIndex c |} in
     selectActiveSearchResult c =
       (Return tt, c',
        [SelectionChange result; DropdownMessage Close; MarkForCheck]) /\
     forall key, toLowerCase key = "tab" \/ toLowerCase key = "enter" ->
                 handleKeyDown key c =
                   (Return tt, c',
                    [SelectionChange result; DropdownMessage Close;
                     MarkForCheck; PreventDefault])) /\
  (forall index result d,
     default [] (searchResults c) !! index = Some result ->
     inputDirective c = Some d ->
     onSearchResultClick index c =
       (Return tt,
        {| search := search c;
           data := data c;
           propertiesToSearch := propertiesToSearch c;
           searchResultsLimit := searchResultsLimit c;
           descriptorProperty := descriptorProperty c;
           searchTextMinimumCharacters := searchTextMinimumCharacters c;
           inputDirective :=
             Some {| value := Some result;
                     directiveDescriptorProperty :=
                       directiveDescriptorProperty d |};
           searchResults := Some [];
           searchText := get result (descriptorProperty c);
           isMouseEnter := isMouseEnter c;
           searchResultsIndex := index |},
        [SelectionChange result; DropdownMessage Close; MarkForCheck])) /\
  (forall index,
     default [] (searchResults c) = [] ->
     onSearchResultClick index c =
       (Return tt, set_searchResultsIndex index c, [])).
Proof.
  split; [|split; [|split]].
  - intros H. split; [by apply selectActiveSearchResult_none|].
    intros key Hkey. rewrite (tab_or_enter key Hkey). run_method.
    apply hasSearchResults_empty in H. by rewrite H.
  - intros result d Hres Hdir c'. split.
    + by rewrite (selectActiveSearchResult_some c result d Hres Hdir).
    + intros key Hkey. rewrite (tab_or_enter key Hkey). run_method.
      assert (hasSearchResults c = true) as ->.
      { destruct (hasSearchResults c) eqn:E; [done|].
        apply hasSearchResults_empty in E. by rewrite E in Hres. }
      by rewrite (selectActiveSearchResult_some c result d Hres Hdir).
  - intros index result d Hres Hdir. unfold onSearchResultClick. run_method.
    by rewrite (selectActiveSearchResult_some
                  (set_searchResultsIndex index c) result d Hres Hdir).
  - intros index H. unfold onSearchResultClick. run_method.
    by rewrite (selectActiveSearchResult_none
                  (set_searchResultsIndex index c) H).
Qed.

(** Enter on the two results with the second active selects Anna. *)
Lemma selectActiveSearchResult_spec_witness :
  selectActiveSearchResult (component [ann] ["name"] None) =
    (Return tt, component [ann] ["name"] None, []) /\
  fst (handleKeyDown "Enter" showingResults) =
    (Return tt,
     {| search := None;
        data := [ann; anna; bob];
        propertiesToSearch := ["name"];
        searchResultsLimit := Some 2;
        descriptorProperty := "name";
        searchTextMinimumCharacters := 3;
        inputDirective :=
          Some {| value := Some anna; directiveDescriptorProperty := "name" |};
        searchResults := Some [];
        searchText := VStr "Anna";
        isMouseEnter := false;
        searchResultsIndex := 1%nat |}) /\
  snd (handleKeyDown "Enter" showingResults) =
    [SelectionChange anna; DropdownMessage Close; MarkForCheck;
     PreventDefault].
Proof.
  destruct (selectActiveSearchResult_spec (component [ann] ["name"] None))
    as [Hnone _].
  destruct (selectActiveSearchResult_spec showingResults) as (_ & Hsome & _).
  destruct (Hsome anna boundInput eq_refl eq_refl) as (_ & Hkey).
  split; [apply Hnone; reflexivity|].
  rewrite (Hkey "Enter" (or_intror eq_refl)).
  split; reflexivity.
Defined.

(** Past the end of the results the selection raises a TypeError, after
    which nothing has been sent. *)
Example selectActiveSearchResult_out_of_range :
  selectActiveSearchResult (set_searchResultsIndex 5 showingResults) =
    (Throw TypeError, set_searchResultsIndex 5 showingResults, []).
Proof. reflexivity. Qed.

(** C6.  A text that is not blank and is shorter than
    [searchTextMinimumCharacters] changes nothing: no search function is
    called, no dropdown message is sent, and the component is as it was. *)
Theorem searchTextChanged_too_short (c : SkyAutocompleteComponent)
    (text : string) :
  text <> EmptyString ->
  ~ blank text ->
  strlen text < searchTextMinimumCharacters c ->
  searchTextChanged (Some text) c = (Return tt, c, []).
Proof.
  intros _ Hblank Hshort. unfold searchTextChanged.
  change (default EmptyString (Some text)) with text.
  destruct (negb (truthy (VStr text)) || matchesOnlySpace text) eqn:E.
  { apply isSearchTextEmpty_blank in E. done. }
  apply Z.leb_gt in Hshort.
  unfold mbind, M_bind, bind, read, when. by rewrite Hshort.
Qed.

Lemma searchTextChanged_too_short_witness :
  searchTextChanged (Some "an") showingResults
    = (Return tt, showingResults, []).
Proof.
  apply searchTextChanged_too_short.
  - discriminate.
  - intros H. apply allSpace_blank in H. discriminate H.
  - reflexivity.
Defined.

(** C7.  A text that is empty or all white space (or no text at all), in
    any state: [searchText] becomes the empty string, the results become
    the empty list, and [Close] is sent; no search function is called. *)
Theorem searchTextChanged_blank (c : SkyAutocompleteComponent)
    (arg : option string) :
  blank (default EmptyString arg) ->
  searchTextChanged arg c =
    (Return tt,
     {| search := search c;
        data := data c;
        propertiesToSearch := propertiesToSearch c;
        searchResultsLimit := searchResultsLimit c;
        descriptorProperty := descriptorProperty c;
        searchTextMinimumCharacters := searchTextMinimumCharacters c;
        inputDirective := inputDirective c;
        searchResults := Some [];
        searchText := VStr EmptyString;
        isMouseEnter := isMouseEnter c;
        searchResultsIndex := searchResultsIndex c |},
     [DropdownMessage Close; MarkForCheck]).
Proof.
  intros H. apply isSearchTextEmpty_blank in H.
  unfold searchTextChanged. rewrite H. reflexivity.
Qed.

Lemma searchTextChanged_blank_witness :
  searchTextChanged (Some "  ") showingResults =
    (Return tt,
     {| search := None;
        data := [ann; anna; bob];
        propertiesToSearch := ["name"];
        searchResultsLimit := Some 2;
        descriptorProperty := "name";
        searchTextMinimumCharacters := 3;
        inputDirective := Some boundInput;
        searchResults := Some [];
        searchText := VStr EmptyString;
        isMouseEnter := false;
        searchResultsIndex := 1%nat |},
     [DropdownMessage Close; MarkForCheck]).
Proof.
  apply (searchTextChanged_blank showingResults (Some "  ")).
  apply allSpace_blank. reflexivity.
Defined.

(** A query nothing matches: the default search is called and its empty
    array is what the promise is fulfilled with. *)
Example searchTextChanged_no_match :
  snd (searchTextChanged (Some "zzz") showingResults) =
    [SearchCall "zzz"; Then (Resolved [])].
Proof. vm_compute. reflexivity. Qed.

(** C9.  When the search is fulfilled with the empty list, [searchResults]
    becomes that empty list and [Open] is sent all the same: the component
    then has no search results and the dropdown has been told to open.  What
    is sent does not depend on the results at all. *)
Theorem searchFulfilled_empty (c : SkyAutocompleteComponent) :
  searchFulfilled [] c =
    (Return tt, set_searchResults [] c, [DropdownMessage Open; MarkForCheck])
  /\ searchResults (set_searchResults [] c) = Some []
  /\ hasSearchResults (set_searchResults [] c) = false
  /\ forall results,
       searchFulfilled results c =
         (Return tt, set_searchResults results c,
          [DropdownMessage Open; MarkForCheck]).
Proof.
  assert (forall results,
            searchFulfilled results c =
              (Return tt, set_searchResults results c,
               [DropdownMessage Open; MarkForCheck])) as H.
  { intros results. unfold searchFulfilled, openDropdown, sendDropdownMessage.
    run_method. reflexivity. }
  split; [apply H|]. split; [reflexivity|]. split; [reflexivity|apply H].
Qed.

(** C10.  Without the input directive, [ngAfterContentInit] throws before
    it has subscribed to anything and leaves the component untouched; with
    it, it completes normally, having handed over the descriptor property
    and subscribed to the text changes. *)
Theorem ngAfterContentInit_spec (c : SkyAutocompleteComponent) :
  match inputDirective c with
  | None => ngAfterContentInit c = (Throw MissingInputError, c, [])
  | Some d =>
      ngAfterContentInit c =
        (Return tt,
         set_inputDirective
           {| value := value d;
              directiveDescriptorProperty := descriptorProperty c |} c,
         [SearchTextChangeSubscribe])
  end.
Proof.
  unfold ngAfterContentInit. run_method.
  destruct (inputDirective c); reflexivity.
Qed.

End AutocompleteHandlers.

(** ** The scrollable parent *)

Section ScrollableParent.
Import InfiniteScroll ScrollFixtures.

(** Induction along the chain of parents. *)
Lemma element_chain_ind (P : element -> Prop) :
  (forall l b o, P (Element l b o None)) ->
  (forall l b o p, P p -> P (Element l b o (Some p))) ->
  forall e, P e.
Proof.
  intros Htop Hstep. fix IH 1. intros [l b o [p|]].
  - apply Hstep, IH.
  - apply Htop.
Qed.

Lemma stopsWalk_body e :
  (forall n, elementLength e = Some n -> 0 < n) ->
  stopsWalk e = isDocumentBody e.
Proof.
  intros H. unfold stopsWalk. destruct (elementLength e) as [n|]; [|done].
  simpl. specialize (H n eq_refl).
  by assert ((n <=? 0) = false) as -> by (apply Z.leb_gt; lia).
Qed.

(** The walk ends in the window with the flag set, or in a parent with the
    flag as it was. *)
Lemma getScrollableParent_flag e flag v f :
  getScrollableParent e flag = Ok (v, f) ->
  (v = Window /\ f = true) \/ (exists p, v = Parent p /\ f = flag).
Proof.
  revert e. apply (element_chain_ind (fun e =>
    getScrollableParent e flag = Ok (v, f) ->
    (v = Window /\ f = true) \/ (exists p, v = Parent p /\ f = flag))).
  - intros l b o. simpl. destruct (stopsWalk _); [|done].
    intros [= <- <-]. by left.
  - intros l b o p IH. simpl. destruct (stopsWalk _).
    + intros [= <- <-]. by left.
    + destruct (scrolls p); [|done]. intros [= <- <-]. right. eauto.
Qed.

Lemma candidates_parent l o p :
  candidates (Element l false o (Some p)) = p :: candidates p.
Proof. unfold candidates. simpl. by destruct (isDocumentBody p). Qed.

Lemma getScrollableParent_candidates e flag :
  (forall x, x ∈ e :: candidates e ->
             forall n, elementLength x = Some n -> 0 < n) ->
  (exists x, x ∈ e :: ancestors e /\ isDocumentBody x = true) ->
  getScrollableParent e flag =
    match List.find scrolls (candidates e) with
    | Some p => Ok (Parent p, flag)
    | None => Ok (Window, true)
    end.
Proof.
  revert e. apply (element_chain_ind (fun e =>
    (forall x, x ∈ e :: candidates e ->
               forall n, elementLength x = Some n -> 0 < n) ->
    (exists x, x ∈ e :: ancestors e /\ isDocumentBody x = true) ->
    getScrollableParent e flag =
      match List.find scrolls (candidates e) with
      | Some p => Ok (Parent p, flag)
      | None => Ok (Window, true)
      end)).
  - intros l b o Hlen [x [Hx Hbody]]. simpl in Hx.
    apply list_elem_of_singleton in Hx as ->. simpl in Hbody. subst b.
    simpl. rewrite stopsWalk_body by (apply Hlen; left). done.
  - intros l b o p IH Hlen Hbody. simpl.
    rewrite stopsWalk_body by (apply Hlen; left).
    destruct b; [done|]. simpl. rewrite candidates_parent in Hlen |- *.
    simpl. destruct (scrolls p) eqn:Hp; [done|].
    apply IH.
    + intros x Hx. apply Hlen. by right.
    + destruct Hbody as [x [Hx Hb]].
      apply elem_of_cons in Hx as [->|Hx]; [done|]. eauto.
Qed.

(** C5, as the specification words it, fails under a form without
    controls: the nearest ancestor that scrolls is [scroller], but the walk
    stops at the form, whose [length] is 0, and takes the window. *)
Lemma getScrollableParent_empty_form :
  List.find scrolls (candidates triggerInForm) = Some scroller /\
  getScrollableParent triggerInForm false = Ok (Window, true) /\
  getScrollableParent triggerInForm false <>
    match List.find scrolls (candidates triggerInForm) with
    | Some p => Ok (Parent p, false)
    | None => Ok (Window, true)
    end.
Proof. repeat split. discriminate. Qed.

(** A chain that never reaches [document.body] and has no scrolling
    element ends in a TypeError. *)
Example getScrollableParent_detached :
  getScrollableParent html false = TypeError.
Proof. reflexivity. Qed.

(** The walk ends in the window at the first element, from the trigger
    up, that stops it, when no ancestor up to that element scrolls. *)
Lemma getScrollableParent_stopped passed : forall e x after flag,
  e :: ancestors e = passed ++ x :: after ->
  stopsWalk x = true ->
  (forall y, y ∈ passed -> stopsWalk y = false) ->
  (forall i y, (passed ++ [x]) !! S i = Some y -> scrolls y = false) ->
  getScrollableParent e flag = Ok (Window, true).
Proof.
  induction passed as [|z passed IH];
    intros e x after flag Hchain Hx Hpass Hscr.
  - simpl in Hchain. injection Hchain as <- _.
    destruct e as [l b o p]. simpl. by rewrite Hx.
  - simpl in Hchain. injection Hchain as <- Hanc.
    destruct e as [l b o [p|]]; simpl in Hanc.
    + simpl. rewrite (Hpass _ (list_elem_of_here _ _)).
      assert ((passed ++ [x]) !! 0%nat = Some p) as H0.
      { destruct passed as [|w passed]; simpl in *; congruence. }
      rewrite (Hscr 0%nat p H0).
      apply (IH p x after flag).
      * by rewrite Hanc.
      * done.
      * intros y Hy. apply Hpass. by right.
      * intros i y Hy. apply (Hscr (S i)). exact Hy.
    + by destruct passed.
Qed.

(** C5 (amended).  For a trigger below [document.body], with no element on
    the way to the body whose [length] is zero or less: the resolution
    returns the nearest ancestor, up to the body and the body included,
    whose inline [overflow-y] is [auto] or [scroll], and leaves the flag as
    it was; when there is none, it returns the window and sets
    [scrollableParentIsWindow].  An element whose [length] is zero or less
    ends the walk as the body does: when it is the first such element from
    the trigger up, with no body before it and no scrolling ancestor up to
    and including it, the window is returned and the flag is set, whatever
    lies above it. *)
Theorem getScrollableParent_spec (e : element) (flag : bool) :
  ((forall x, x ∈ e :: candidates e ->
              forall n, elementLength x = Some n -> 0 < n) ->
   (exists x, x ∈ e :: ancestors e /\ isDocumentBody x = true) ->
   match List.find scrolls (candidates e) with
   | Some p =>
       getScrollableParent e flag = Ok (Parent p, flag) /\
       p ∈ ancestors e /\
       (overflowY p = "auto" \/ overflowY p = "scroll")
   | None =>
       getScrollableParent e flag = Ok (Window, true) /\
       forall p, p ∈ candidates e ->
                 overflowY p <> "auto" /\ overflowY p <> "scroll"
   end) /\
  (forall passed x after n,
     e :: ancestors e = passed ++ x :: after ->
     elementLength x = Some n ->
     n <= 0 ->
     (forall y, y ∈ passed ->
                isDocumentBody y = false /\
                forall m, elementLength y = Some m -> 0 < m) ->
     (forall i y, (passed ++ [x]) !! S i = Some y ->
                  overflowY y <> "auto" /\ overflowY y <> "scroll") ->
     getScrollableParent e flag = Ok (Window, true)).
Proof.
  split.
  - intros Hlen Hbody.
    rewrite (getScrollableParent_candidates e flag Hlen Hbody).
    assert (Hsub : forall l x, x ∈ upToBody l -> x ∈ l).
    { induction l as [|y l IH]; simpl; [done|]. intros x.
      destruct (isDocumentBody y).
      - intros ->%list_elem_of_singleton. by left.
      - intros [->|H]%elem_of_cons; [by left | right; auto]. }
    destruct (List.find scrolls (candidates e)) as [p|] eqn:E.
    + apply find_some in E as [Hin Hp]. apply list_elem_of_In in Hin.
      repeat split.
      * unfold candidates in Hin. destruct (isDocumentBody e).
        -- by apply elem_of_nil in Hin.
        -- by apply Hsub.
      * unfold scrolls in Hp. apply orb_true_iff in Hp.
        destruct Hp as [Hp|Hp]; apply bool_decide_eq_true in Hp; auto.
    + split; [done|]. intros p Hp. apply list_elem_of_In in Hp.
      pose proof (find_none _ _ E p Hp) as Hn. unfold scrolls in Hn.
      apply orb_false_iff in Hn as [H1 H2].
      apply bool_decide_eq_false in H1, H2. done.
  - intros passed x after n Hchain Hn Hle Hpass Hscr.
    apply (getScrollableParent_stopped passed e x after flag Hchain).
    + unfold stopsWalk. rewrite Hn. simpl.
      by assert ((n <=? 0) = true) as -> by (by apply Z.leb_le).
    + intros y Hy. destruct (Hpass y Hy) as [Hb Hl].
      rewrite stopsWalk_body by done. done.
    + intros i y Hy. destruct (Hscr i y Hy) as [H1 H2]. unfold scrolls.
      by rewrite !bool_decide_eq_false_2.
Qed.

Lemma getScrollableParent_spec_witness :
  getScrollableParent triggerInWrapper false = Ok (Parent scroller, false) /\
  getScrollableParent triggerInBody false = Ok (Window, true) /\
  getScrollableParent triggerInForm false = Ok (Window, true).
Proof.
  split; [|split].
  - apply (getScrollableParent_spec triggerInWrapper false).
    + intros x Hx n. apply list_elem_of_In in Hx. vm_compute in Hx.
      destruct Hx as [<-|[<-|[<-|[<-|[]]]]]; discriminate.
    + exists body. split; [|reflexivity].
      apply list_elem_of_In. simpl. tauto.
  - apply (getScrollableParent_spec triggerInBody false).
    + intros x Hx n. apply list_elem_of_In in Hx. vm_compute in Hx.
      destruct Hx as [<-|[<-|[]]]; discriminate.
    + exists body. split; [|reflexivity].
      apply list_elem_of_In. simpl. tauto.
  - destruct (getScrollableParent_spec triggerInForm false) as [_ Hstop].
    apply (Hstop [triggerInForm] emptyForm [scroller; body; html] 0).
    + reflexivity.
    + reflexivity.
    + lia.
    + intros y Hy. apply list_elem_of_In in Hy. simpl in Hy.
      destruct Hy as [<-|[]]. split; [reflexivity | discriminate].
    + intros [|i] y Hy; simpl in Hy; [|discriminate Hy].
      injection Hy as <-. split; discriminate.
Defined.

End ScrollableParent.

(** ** Loading on scroll *)

Section ScrollLoading.
Import InfiniteScroll ScrollFixtures.

Lemma handle_parent c e :
  scrollableParentEl (fst (handle c e)) = scrollableParentEl c /\
  scrollableParentIsWindow (fst (handle c e)) = scrollableParentIsWindow c.
Proof.
  destruct e as [d|d|b]; simpl; [| |done].
  - unfold startInfiniteScrollLoad. by repeat case_match.
  - unfold onDOMNodeInserted. by repeat case_match.
Qed.

Lemma run_parent es : forall c,
  scrollableParentEl (fst (run c es)) = scrollableParentEl c /\
  scrollableParentIsWindow (fst (run c es)) = scrollableParentIsWindow c.
Proof.
  induction es as [|e es IH]; intros c; simpl; [done|].
  destruct (handle c e) as [c1 out1] eqn:E1.
  destruct (run c1 es) as [c2 out2] eqn:E2. simpl.
  specialize (IH c1). rewrite E2 in IH. simpl in IH.
  pose proof (handle_parent c e) as H. rewrite E1 in H. simpl in H.
  destruct IH as [-> ->]. done.
Qed.

Lemma ngOnInit_parent more e d c :
  ngOnInit more e d = Ok c ->
  isLoading c = false /\
  elementPosition c = offsetTop d /\
  (scrollableParentIsWindow c = true <-> scrollableParentEl c = Window).
Proof.
  unfold ngOnInit.
  destruct (getScrollableParent e false) as [[v f]|] eqn:E; [|done].
  intros [= <-]. simpl. repeat split.
  - intros ->. apply getScrollableParent_flag in E as [[? _]|(p & _ & ?)]; done.
  - intros ->. apply getScrollableParent_flag in E as [[_ ?]|(p & ? & _)]; done.
Qed.

Lemma outstanding_app out1 out2 :
  outstanding (out1 ++ out2) =
  fold_left outstandingStep out2 (outstanding out1).
Proof. unfold outstanding. by rewrite fold_left_app. Qed.

Lemma handle_inStep c e pre :
  inStep c pre -> inStep (fst (handle c e)) (pre ++ snd (handle c e)).
Proof.
  unfold inStep. intros H. rewrite outstanding_app, H.
  destruct e as [d|d|b]; simpl.
  - unfold startInfiniteScrollLoad.
    destruct (isLoading c) eqn:L; simpl.
    + rewrite andb_false_r. simpl.
      destruct (negb _); simpl; [done | by rewrite L].
    + destruct (hasMore c && true && infiniteScrollInView c d); simpl;
        [done | by rewrite L].
  - unfold onDOMNodeInserted.
    destruct (isLoading c) eqn:L; simpl; [|by rewrite L].
    destruct (negb _); simpl; [done | by rewrite L].
  - done.
Qed.

Lemma run_inStep es : forall c pre,
  inStep c pre -> inStep (fst (run c es)) (pre ++ snd (run c es)).
Proof.
  induction es as [|e es IH]; intros c pre H; simpl.
  - by rewrite app_nil_r.
  - pose proof (handle_inStep c e pre H) as H1.
    destruct (handle c e) as [c1 out1]. simpl in H1.
    specialize (IH c1 (pre ++ out1) H1).
    destruct (run c1 es) as [c2 out2]. simpl in *.
    by rewrite app_assoc.
Qed.

Lemma scroll_emits_load c d :
  hasMore c = true -> isLoading c = false ->
  infiniteScrollInView c d = true ->
  startInfiniteScrollLoad c d =
    (set_isLoading true c, [IsLoadingNext true; OnLoadEmit]).
Proof.
  intros Hm Hl Hv. unfold startInfiniteScrollLoad. by rewrite Hm, Hl, Hv.
Qed.

(** C2.  The code breaks it when the trigger has moved since its position
    was last recorded ([elementPosition] is set by [ngOnInit] and by a
    reset, not when a load is requested).  After [ngOnInit] with the trigger
    at 0, under one and the same layout with the trigger at 500: the first
    scroll event requests a load; the second, with nothing loaded and
    nothing moved in between, takes the position for new content, records
    it and clears [isLoading], so it does change the state; the third
    requests a second load while the first is still unanswered. *)
Lemma second_scroll_changes_state :
  ngOnInit true triggerInBody atInit = Ok windowed /\
  startInfiniteScrollLoad windowed later =
    (set_isLoading true windowed, [IsLoadingNext true; OnLoadEmit]) /\
  startInfiniteScrollLoad (set_isLoading true windowed) later =
    (set_isLoading false (set_elementPosition 500 windowed),
     [IsLoadingNext false]) /\
  fst (startInfiniteScrollLoad (set_isLoading true windowed) later) <>
    set_isLoading true windowed /\
  run windowed [Scroll later; Scroll later; Scroll later] =
    ({| hasMore := true; isLoading := true; elementPosition := 500;
        scrollableParentEl := Window; scrollableParentIsWindow := true |},
     [IsLoadingNext true; OnLoadEmit; IsLoadingNext false;
      IsLoadingNext true; OnLoadEmit]).
Proof. repeat split. discriminate. Qed.

(** What the loading flag does give.  Count a request as outstanding from
    its load signal until [isLoading] is next cleared; then in every state
    reached from [ngOnInit] by scroll events, insertion events and changes
    of [hasMore], at most one request is outstanding, and one is exactly
    when [isLoading] holds.  In such a state, with [hasMore], not loading
    and the trigger in view, a scroll event emits one load signal and sets
    [isLoading]; while [isLoading] holds no scroll event emits a load
    signal, and a scroll event under which the trigger is at the recorded
    [elementPosition] emits nothing and leaves the state as it is. *)
Theorem scroll_one_outstanding_load (more : bool) (e : element) (d0 : Dom)
    (c0 : SkyInfiniteScrollComponent) (es : list event)
    (c : SkyInfiniteScrollComponent) (out : list signal) (d : Dom) :
  ngOnInit more e d0 = Ok c0 ->
  run c0 es = (c, out) ->
  (outstanding out <= 1)%nat /\
  (isLoading c = true <-> outstanding out = 1%nat) /\
  (hasMore c = true -> isLoading c = false ->
   infiniteScrollInView c d = true ->
   startInfiniteScrollLoad c d =
     (set_isLoading true c, [IsLoadingNext true; OnLoadEmit])) /\
  (isLoading c = true -> OnLoadEmit ∉ snd (startInfiniteScrollLoad c d)) /\
  (isLoading c = true -> offsetTop d = elementPosition c ->
   startInfiniteScrollLoad c d = (c, [])).
Proof.
  intros Hinit Hrun.
  assert (inStep c out) as Hstep.
  { pose proof (run_inStep es c0 []) as H. rewrite Hrun in H. simpl in H.
    apply H. unfold inStep.
    apply ngOnInit_parent in Hinit as [-> _]. done. }
  unfold inStep in Hstep. repeat split.
  - rewrite Hstep. destruct (isLoading c); lia.
  - intros L. by rewrite Hstep, L.
  - rewrite Hstep. by destruct (isLoading c).
  - apply scroll_emits_load.
  - intros L. unfold startInfiniteScrollLoad. rewrite L, andb_false_r. simpl.
    destruct (negb _); simpl; intros H; apply list_elem_of_In in H;
      simpl in H; intuition discriminate.
  - intros L Hpos. unfold startInfiniteScrollLoad.
    rewrite L, andb_false_r, Hpos, Z.eqb_refl. done.
Qed.

Lemma scroll_one_outstanding_load_witness :
  run windowed [Scroll later] =
    (set_isLoading true windowed, [IsLoadingNext true; OnLoadEmit]) /\
  (outstanding [IsLoadingNext true; OnLoadEmit] <= 1)%nat /\
  startInfiniteScrollLoad (set_isLoading true windowed) atInit =
    (set_isLoading true windowed, []).
Proof.
  split; [reflexivity|].
  destruct (scroll_one_outstanding_load true triggerInBody atInit windowed
              [Scroll later] (set_isLoading true windowed)
              [IsLoadingNext true; OnLoadEmit] atInit eq_refl eq_refl)
    as (Hle & _ & _ & _ & Hsame).
  split; [exact Hle|]. apply Hsame; reflexivity.
Defined.

(** C4.  While loading, an event under which the trigger is not at the
    recorded [elementPosition] records the new position and clears
    [isLoading], be it a scroll event or an insertion event; after it a
    scroll event with [hasMore] and the trigger in view emits a load
    signal again. *)
Theorem loading_reset (c : SkyInfiniteScrollComponent) (d : Dom) :
  isLoading c = true ->
  offsetTop d <> elementPosition c ->
  let c' := set_isLoading false (set_elementPosition (offsetTop d) c) in
  elementPosition c' = offsetTop d /\
  isLoading c' = false /\
  startInfiniteScrollLoad c d = (c', [IsLoadingNext false]) /\
  onDOMNodeInserted c d = (c', [IsLoadingNext false]) /\
  forall d', hasMore c = true -> infiniteScrollInView c' d' = true ->
    startInfiniteScrollLoad c' d' =
      (set_isLoading true c', [IsLoadingNext true; OnLoadEmit]).
Proof.
  intros L Hpos c'. apply Z.eqb_neq in Hpos. repeat split.
  - unfold startInfiniteScrollLoad. by rewrite L, andb_false_r, Hpos.
  - unfold onDOMNodeInserted. by rewrite L, Hpos.
  - intros d' Hm Hv. by apply scroll_emits_load.
Qed.

Lemma loading_reset_witness :
  startInfiniteScrollLoad loading grown =
    (set_isLoading false (set_elementPosition 900 loading),
     [IsLoadingNext false]) /\
  onDOMNodeInserted loading grown =
    (set_isLoading false (set_elementPosition 900 loading),
     [IsLoadingNext false]).
Proof.
  destruct (loading_reset loading grown eq_refl) as (_ & _ & Hs & Hi & _).
  - discriminate.
  - split; [exact Hs | exact Hi].
Defined.

(** C8.  In every state reached from [ngOnInit], the trigger is in view
    exactly when the scroll offset of the viewport plus its visible height
    is greater than the trigger's [offsetTop]: [scrollY] plus
    [innerHeight] when the viewport is the window, [scrollTop] plus
    [clientHeight] when it is an ancestor element. *)
Theorem infiniteScrollInView_spec (more : bool) (e : element) (d0 : Dom)
    (c0 : SkyInfiniteScrollComponent) (es : list event) (d : Dom) :
  ngOnInit more e d0 = Ok c0 ->
  match scrollableParentEl (fst (run c0 es)) with
  | Window =>
      infiniteScrollInView (fst (run c0 es)) d = true <->
      windowScrollY d + windowInnerHeight d > offsetTop d
  | Parent _ =>
      infiniteScrollInView (fst (run c0 es)) d = true <->
      parentScrollTop d + parentClientHeight d > offsetTop d
  end.
Proof.
  intros Hinit. apply ngOnInit_parent in Hinit as (_ & _ & Hflag).
  destruct (run_parent es c0) as [Hp Hf].
  unfold infiniteScrollInView. rewrite Hp, Hf.
  destruct (scrollableParentEl c0) as [|p] eqn:E.
  - rewrite (proj2 Hflag eq_refl). simpl. rewrite Z.ltb_lt. lia.
  - destruct (scrollableParentIsWindow c0) eqn:F.
    + destruct Hflag as [Hw _]. by specialize (Hw eq_refl).
    + simpl. rewrite Z.ltb_lt. lia.
Qed.

Lemma infiniteScrollInView_spec_witness :
  (infiniteScrollInView windowed later = true <-> 0 + 800 > 500) /\
  (infiniteScrollInView
     {| hasMore := true; isLoading := false; elementPosition := 0;
        scrollableParentEl := Parent scroller;
        scrollableParentIsWindow := false |} grown = true <->
   200 + 800 > 900).
Proof.
  split.
  - apply (infiniteScrollInView_spec true triggerInBody atInit windowed []
             later eq_refl).
  - apply (infiniteScrollInView_spec true triggerInWrapper atInit _ []
             grown eq_refl).
Defined.

End ScrollLoading.

(** * Further properties of the code *)

(** ** More on strings *)

Section MoreStrings.
Import JS.

Lemma lowerChar_idempotent ch : lowerChar (lowerChar ch) = lowerChar ch.
Proof. destruct ch as [[] [] [] [] [] [] [] []]; reflexivity. Qed.

Lemma toLowerCase_idempotent s : toLowerCase (toLowerCase s) = toLowerCase s.
Proof.
  induction s as [|ch s IH]; simpl; [done|].
  by rewrite lowerChar_idempotent, IH.
Qed.

Lemma trimStart_allSpace s : allSpace (trimStart s) = allSpace s.
Proof.
  induction s as [|ch s IH]; simpl; [done|].
  destruct (isSpace ch) eqn:E; simpl; [done | by rewrite E].
Qed.

Lemma trimEnd_empty s : trimEnd s = EmptyString <-> allSpace s = true.
Proof.
  induction s as [|ch s IH]; simpl; [done|].
  destruct (trimEnd s) as [|ch' t] eqn:E.
  - destruct (isSpace ch); simpl.
    + split; [intros _; by apply IH | done].
    + split; done.
  - split; [done|]. intros [_ H]%andb_true_iff. apply IH in H. done.
Qed.

Lemma trimEnd_allSpace s :
  allSpace (trimEnd s) = true -> trimEnd s = EmptyString.
Proof.
  induction s as [|ch s IH]; simpl; [done|].
  destruct (trimEnd s) as [|ch' t] eqn:E.
  - destruct (isSpace ch) eqn:Hc; simpl; [done|]. by rewrite Hc.
  - intros [_ H]%andb_true_iff. by apply IH in H.
Qed.

Lemma trimEnd_idempotent s : trimEnd (trimEnd s) = trimEnd s.
Proof.
  induction s as [|ch s IH]; simpl; [done|].
  destruct (trimEnd s) as [|ch' t] eqn:E.
  - destruct (isSpace ch) eqn:Hc; simpl; [done | by rewrite Hc].
  - change (trimEnd (String ch (String ch' t))) with
      (match trimEnd (String ch' t) with
       | EmptyString =>
           if isSpace ch then EmptyString else String ch EmptyString
       | u => String ch u
       end).
    by rewrite IH.
Qed.

(** What is left of a string that begins with a character that is not white
    space still begins with it. *)
Lemma trimEnd_head ch s :
  isSpace ch = false -> exists t, trimEnd (String ch s) = String ch t.
Proof.
  intros Hc. simpl. destruct (trimEnd s); rewrite ?Hc; eauto.
Qed.

Lemma trimStart_head s :
  trimStart s = EmptyString \/
  exists ch t, trimStart s = String ch t /\ isSpace ch = false.
Proof.
  induction s as [|ch s IH]; simpl; [by left|].
  destruct (isSpace ch) eqn:E; [done|]. right. eauto.
Qed.

Lemma trim_idempotent s : trim (trim s) = trim s.
Proof.
  unfold trim. destruct (trimStart_head s) as [->|(ch & t & -> & Hc)].
  - reflexivity.
  - destruct (trimEnd_head ch t Hc) as [u Hu].
    rewrite Hu. cbn [trimStart]. rewrite Hc, <- Hu.
    apply trimEnd_idempotent.
Qed.

Lemma trim_not_blank s : ~ blank s -> ~ blank (trim s) /\ trim s <> EmptyString.
Proof.
  intros H. assert (allSpace (trim s) <> true) as Hn.
  { intros Ha. unfold trim in Ha. apply trimEnd_allSpace in Ha.
    apply trimEnd_empty in Ha. rewrite trimStart_allSpace in Ha.
    by apply allSpace_blank in Ha. }
  split.
  - by rewrite <- allSpace_blank.
  - intros E. by rewrite E in Hn.
Qed.

Lemma indexOf_empty s : indexOf s EmptyString = 0.
Proof. unfold indexOf. by destruct s. Qed.

End MoreStrings.

(** ** More on the default search *)

Section DefaultSearchMore.
Import JS Autocomplete Fixtures.

Lemma filter_sublist {A} (f : A -> bool) (l : list A) :
  sublist (List.filter f l) l.
Proof.
  induction l as [|x l IH]; simpl; [constructor|].
  destruct (f x); by constructor.
Qed.

Lemma isMatch_sound properties q r :
  isMatch properties q r = true ->
  exists p, p ∈ properties /\ p <> EmptyString /\
            JS.contains
              (toLowerCase (toString (or (get r p) (VStr EmptyString)))) q.
Proof.
  unfold isMatch. destruct (List.find _ properties) as [p|] eqn:E; [|done].
  apply find_some in E as [Hin Hp]. apply list_elem_of_In in Hin.
  unfold propertyMatches in Hp. apply indexOf_contains in Hp.
  simpl. case_bool_decide; [done|]. intros _. eauto.
Qed.

Lemma defaultSearchFunction_matches c searchText r :
  r ∈ defaultSearchFunction c searchText ->
  exists p, p ∈ propertiesToSearch c /\ p <> EmptyString /\
    JS.contains
      (toLowerCase (toString (or (get r p) (VStr EmptyString))))
      (toLowerCase searchText).
Proof.
  unfold defaultSearchFunction, defaultSearchTrace.
  destruct (defaultSearchLoop_trace (propertiesToSearch c)
              (searchResultsLimit c) (toLowerCase searchText) (data c) [] [])
    as (seen & unseen & Hdata & Hrun & _ & _).
  rewrite Hrun. simpl. intros Hr.
  apply list_elem_of_In, filter_In in Hr as [_ Hr]. by apply isMatch_sound.
Qed.

(** The default search only ever returns records of the data set, in the
    order of the data set, and each of them has a configured field, of
    non-empty name, whose text behind [|| ''] contains the query in lower
    case. *)
Theorem defaultSearchFunction_sound (c : SkyAutocompleteComponent)
    (searchText : string) :
  sublist (defaultSearchFunction c searchText) (data c) /\
  forall r, r ∈ defaultSearchFunction c searchText ->
    exists p, p ∈ propertiesToSearch c /\ p <> EmptyString /\
      JS.contains
        (toLowerCase (toString (or (get r p) (VStr EmptyString))))
        (toLowerCase searchText).
Proof.
  split; [|intros r; apply defaultSearchFunction_matches].
  unfold defaultSearchFunction, defaultSearchTrace.
  destruct (defaultSearchLoop_trace (propertiesToSearch c)
              (searchResultsLimit c) (toLowerCase searchText) (data c) [] [])
    as (seen & unseen & Hdata & Hrun & _ & _).
  rewrite Hrun, Hdata. simpl. apply sublist_inserts_r, filter_sublist.
Qed.

Lemma defaultSearchFunction_sound_witness :
  exists p, p ∈ ["name"] /\ p <> EmptyString /\
    JS.contains
      (toLowerCase (toString (or (get anna p) (VStr EmptyString))))
      (toLowerCase "NN").
Proof.
  destruct (defaultSearchFunction_sound annAnnaBob "NN") as [_ H].
  apply (H anna). apply list_elem_of_In. vm_compute. tauto.
Defined.

(** With a limit other than zero the default search never returns more
    records than the limit; a negative limit leaves none. *)
Theorem defaultSearchFunction_bounded (c : SkyAutocompleteComponent)
    (searchText : string) (n : Z) :
  searchResultsLimit c = Some n ->
  n <> 0 ->
  (length (defaultSearchFunction c searchText) <= Z.to_nat n)%nat.
Proof.
  intros Hlim Hn. unfold defaultSearchFunction, defaultSearchTrace.
  rewrite defaultSearchLoop_results, Hlim.
  apply Z.eqb_neq in Hn. rewrite Hn. simpl.
  rewrite length_take. lia.
Qed.

Lemma defaultSearchFunction_bounded_witness :
  (length (defaultSearchFunction annAnnaBob "a") <= 2)%nat.
Proof.
  apply (defaultSearchFunction_bounded annAnnaBob "a" 2).
  - reflexivity.
  - discriminate.
Defined.

(** Without fields to search, no query finds anything. *)
Theorem defaultSearchFunction_no_properties (c : SkyAutocompleteComponent)
    (searchText : string) :
  propertiesToSearch c = [] ->
  defaultSearchFunction c searchText = [].
Proof.
  intros Hp.
  destruct (defaultSearchFunction c searchText) as [|r l] eqn:E; [done|].
  destruct (defaultSearchFunction_matches c searchText r) as (p & Hin & _).
  - rewrite E. by left.
  - rewrite Hp in Hin. by apply elem_of_nil in Hin.
Qed.

Lemma defaultSearchFunction_no_properties_witness :
  defaultSearchFunction (component [ann; anna; bob] [] None) "an" = [].
Proof. by apply defaultSearchFunction_no_properties. Defined.

(** The case of the query does not matter: the query in lower case finds
    the same records and looks at the same part of the data set. *)
Theorem defaultSearchFunction_query_case (c : SkyAutocompleteComponent)
    (searchText : string) :
  defaultSearchTrace c (toLowerCase searchText) =
  defaultSearchTrace c searchText /\
  defaultSearchFunction c (toLowerCase searchText) =
  defaultSearchFunction c searchText.
Proof.
  unfold defaultSearchFunction, defaultSearchTrace.
  by rewrite toLowerCase_idempotent.
Qed.

End DefaultSearchMore.

(** ** More on the autocomplete handlers *)

Section AutocompleteMore.
Import JS Autocomplete Fixtures.

Ltac run_handlers :=
  unfold mbind, M_bind, mret, M_ret, bind, ret, read, modify, emit, throw,
    when; simpl.

(** The promise [performSearch] gives for a query. *)
Lemma performSearch_run c q :
  performSearch q c =
    (Return
       match search c with
       | None => Resolved (defaultSearchFunction c q)
       | Some f =>
           match f q with
           | ResponseArray results => Resolved results
           | ResponsePromise i => Foreign i
           end
       end, c, [SearchCall q]).
Proof.
  unfold performSearch. run_handlers.
  destruct (search c) as [f|]; simpl; [destruct (f q)|]; reflexivity.
Qed.

Lemma searchTextChanged_searching c text :
  ~ blank text ->
  (searchTextMinimumCharacters c <=? strlen text)
    && negb (strictEquals (VStr text) (searchText c)) = true ->
  searchTextChanged (Some text) c =
    (Return tt, set_searchText (VStr (trim text)) c,
     [SearchCall (trim text);
      Then match search c with
           | None => Resolved (defaultSearchFunction c (trim text))
           | Some f =>
               match f (trim text) with
               | ResponseArray results => Resolved results
               | ResponsePromise i => Foreign i
               end
           end]).
Proof.
  intros Hblank Hcond. unfold searchTextChanged.
  change (default EmptyString (Some text)) with text.
  destruct (negb (truthy (VStr text)) || matchesOnlySpace text) eqn:E.
  { apply isSearchTextEmpty_blank in E. done. }
  unfold mbind, M_bind, bind, read, when. rewrite Hcond.
  unfold modify. rewrite performSearch_run. reflexivity.
Qed.

Lemma searchTextChanged_idle c text :
  ~ blank text ->
  (searchTextMinimumCharacters c <=? strlen text)
    && negb (strictEquals (VStr text) (searchText c)) = false ->
  searchTextChanged (Some text) c = (Return tt, c, []).
Proof.
  intros Hblank Hcond. unfold searchTextChanged.
  change (default EmptyString (Some text)) with text.
  destruct (negb (truthy (VStr text)) || matchesOnlySpace text) eqn:E.
  { apply isSearchTextEmpty_blank in E. done. }
  unfold mbind, M_bind, bind, read, when. by rewrite Hcond.
Qed.

Lemma searchTextChanged_closing c arg :
  blank (default EmptyString arg) ->
  searchTextChanged arg c =
    (Return tt, set_searchResults [] (set_searchText (VStr EmptyString) c),
     [DropdownMessage Close; MarkForCheck]).
Proof.
  intros H. apply isSearchTextEmpty_blank in H.
  unfold searchTextChanged. rewrite H. reflexivity.
Qed.

Lemma blank_dec s : blank s \/ ~ blank s.
Proof.
  destruct (allSpace s) eqn:E.
  - left. by apply allSpace_blank.
  - right. intros H. apply allSpace_blank in H. congruence.
Qed.



(** Whatever the text and the state, a query handed to the search function
    is the trimmed text, is not empty, has some character that is not white
    space, and has no white space left around it. *)
Theorem searchTextChanged_query (c : SkyAutocompleteComponent)
    (arg : option string) (q : string) :
  SearchCall q ∈ snd (searchTextChanged arg c) ->
  q = trim (default EmptyString arg) /\
  q <> EmptyString /\ ~ blank q /\ trim q = q.
Proof.
  intros Hq. destruct (blank_dec (default EmptyString arg)) as [Hb|Hb].
  { rewrite (searchTextChanged_closing c arg Hb) in Hq. simpl in Hq.
    apply list_elem_of_In in Hq. simpl in Hq. intuition discriminate. }
  destruct arg as [text|]; [|exfalso; apply Hb; constructor].
  simpl in Hb.
  destruct ((searchTextMinimumCharacters c <=? strlen text)
            && negb (strictEquals (VStr text) (searchText c))) eqn:Hcond.
  - rewrite (searchTextChanged_searching c text Hb Hcond) in Hq. simpl in Hq.
    apply list_elem_of_In in Hq. simpl in Hq.
    destruct Hq as [[= <-]|[Hq|[]]]; [|discriminate Hq].
    destruct (trim_not_blank text Hb) as [? ?].
    repeat split; [done..|apply trim_idempotent].
  - rewrite (searchTextChanged_idle c text Hb Hcond) in Hq. simpl in Hq.
    by apply elem_of_nil in Hq.
Qed.

Lemma searchTextChanged_query_witness :
  "Ann" = trim " Ann " /\ "Ann" <> EmptyString /\ ~ blank "Ann" /\
  trim "Ann" = "Ann".
Proof.
  apply (searchTextChanged_query showingResults (Some " Ann ") "Ann").
  vm_compute. left.
Defined.

(** A text without white space around it is searched for once: when it
    comes again, with or without the search fulfilled in between, nothing
    happens. *)
Theorem searchTextChanged_repeated (c : SkyAutocompleteComponent)
    (text : string) :
  ~ blank text ->
  trim text = text ->
  (searchTextChanged (Some text) ;; searchTextChanged (Some text)) c =
    searchTextChanged (Some text) c /\
  forall results,
    (searchTextChanged (Some text) ;; searchFulfilled results ;;
     searchTextChanged (Some text)) c =
    (searchTextChanged (Some text) ;; searchFulfilled results) c.
Proof.
  intros Hb Htrim.
  assert (forall c', searchText c' = VStr text ->
            searchTextChanged (Some text) c' = (Return tt, c', [])) as Hidle.
  { intros c' Hc'. apply searchTextChanged_idle; [done|].
    rewrite Hc'. unfold strictEquals. rewrite bool_decide_eq_true_2 by done.
    apply andb_false_r. }
  destruct ((searchTextMinimumCharacters c <=? strlen text)
            && negb (strictEquals (VStr text) (searchText c))) eqn:Hcond.
  - pose proof (searchTextChanged_searching c text Hb Hcond) as Hs.
    rewrite Htrim in Hs. split.
    + unfold mbind, M_bind, bind. rewrite Hs, Hidle by done.
      by rewrite app_nil_r.
    + intros results. unfold mbind, M_bind, bind. rewrite Hs.
      unfold searchFulfilled, openDropdown, sendDropdownMessage.
      run_handlers. rewrite Hidle by done. reflexivity.
  - pose proof (searchTextChanged_idle c text Hb Hcond) as Hs. split.
    + unfold mbind, M_bind, bind. by rewrite Hs, Hs.
    + intros results. unfold mbind, M_bind, bind. rewrite Hs.
      unfold searchFulfilled, openDropdown, sendDropdownMessage.
      run_handlers.
      assert ((searchTextMinimumCharacters c <=? strlen text)
              && negb (strictEquals (VStr text) (searchText c)) = false) as Hc2
        by exact Hcond.
      pose proof (searchTextChanged_idle (set_searchResults results c) text
                    Hb Hc2) as Hs2.
      rewrite Hs2. reflexivity.
Qed.

Lemma searchTextChanged_repeated_witness :
  (searchTextChanged (Some "Ann") ;; searchTextChanged (Some "Ann"))
    showingResults =
  searchTextChanged (Some "Ann") showingResults.
Proof.
  apply (searchTextChanged_repeated showingResults "Ann").
  - intros H. apply allSpace_blank in H. discriminate H.
  - reflexivity.
Defined.

(** White space around the text defeats that: the committed text is the
    trimmed one, so the same padded text, long enough, is searched for
    again with the very query that is already committed. *)
Theorem searchTextChanged_padded (c : SkyAutocompleteComponent)
    (text : string) :
  ~ blank text ->
  trim text <> text ->
  searchTextMinimumCharacters c <= strlen text ->
  searchText c = VStr (trim text) ->
  SearchCall (trim text) ∈ snd (searchTextChanged (Some text) c) /\
  searchText (snd (fst (searchTextChanged (Some text) c))) = searchText c.
Proof.
  intros Hb Hpad Hlen Hcommitted.
  rewrite searchTextChanged_searching; [simpl; split; [by left|done] | done |].
  apply andb_true_iff. split; [by apply Z.leb_le|].
  rewrite Hcommitted. unfold strictEquals.
  apply negb_true_iff, bool_decide_eq_false. congruence.
Qed.

Lemma searchTextChanged_padded_witness :
  SearchCall "an" ∈ snd (searchTextChanged (Some "an ") showingResults).
Proof.
  apply (searchTextChanged_padded showingResults "an ").
  - intros H. apply allSpace_blank in H. discriminate H.
  - discriminate.
  - vm_compute. discriminate.
  - reflexivity.
Defined.

End AutocompleteMore.

(** ** Sequences of autocomplete events *)

Section AutocompleteSequences.
Import JS Autocomplete Fixtures.

Ltac run_seq :=
  unfold mbind, M_bind, mret, M_ret, bind, ret, read, modify, emit, throw,
    when; simpl.

Lemma key_without_results c key :
  hasSearchResults c = false ->
  toLowerCase key = "tab" \/ toLowerCase key = "enter" ->
  handleKeyDown key c = (Return tt, c, []).
Proof.
  intros H Hkey. rewrite (tab_or_enter key Hkey). run_seq. by rewrite H.
Qed.

Lemma selectActiveSearchResult_run c :
  hasSearchResults c = true ->
  selectActiveSearchResult c =
    match default [] (searchResults c) !! searchResultsIndex c with
    | None => (Throw TypeError, c, [])
    | Some result =>
        match inputDirective c with
        | None =>
            (Throw TypeError,
             set_searchText (get result (descriptorProperty c)) c, [])
        | Some d =>
            (Return tt,
             set_searchResults []
               (set_inputDirective
                  {| value := Some result;
                     directiveDescriptorProperty :=
                       directiveDescriptorProperty d |}
                  (set_searchText (get result (descriptorProperty c)) c)),
             [SelectionChange result; DropdownMessage Close; MarkForCheck])
        end
    end.
Proof.
  intros H. unfold selectActiveSearchResult. run_seq. rewrite H.
  destruct (default [] (searchResults c) !! searchResultsIndex c); simpl;
    [|done].
  by destruct (inputDirective c).
Qed.

(** What a tab or enter key comes to when there are results. *)
Lemma key_with_results c key :
  hasSearchResults c = true ->
  toLowerCase key = "tab" \/ toLowerCase key = "enter" ->
  handleKeyDown key c =
    match default [] (searchResults c) !! searchResultsIndex c with
    | None => (Throw TypeError, c, [])
    | Some result =>
        match inputDirective c with
        | None =>
            (Throw TypeError,
             set_searchText (get result (descriptorProperty c)) c, [])
        | Some d =>
            (Return tt,
             set_searchResults []
               (set_inputDirective
                  {| value := Some result;
                     directiveDescriptorProperty :=
                       directiveDescriptorProperty d |}
                  (set_searchText (get result (descriptorProperty c)) c)),
             [SelectionChange result; DropdownMessage Close; MarkForCheck;
              PreventDefault])
        end
    end.
Proof.
  intros H Hkey. rewrite (tab_or_enter key Hkey).
  unfold mbind, M_bind, bind, read, when, emit. rewrite H.
  rewrite (selectActiveSearchResult_run c H).
  destruct (default [] (searchResults c) !! searchResultsIndex c); [|done].
  by destruct (inputDirective c).
Qed.

(** A key other than tab, enter and escape leaves the component as it is
    and never fails: the arrows send their focus message and prevent the
    default, any other key does nothing at all. *)
Theorem handleKeyDown_other_keys (c : SkyAutocompleteComponent)
    (key : string) :
  toLowerCase key <> "tab" ->
  toLowerCase key <> "enter" ->
  toLowerCase key <> "escape" ->
  handleKeyDown key c =
    (Return tt, c,
     if bool_decide (toLowerCase key = "arrowdown")
     then [DropdownMessage FocusNextItem; PreventDefault]
     else if bool_decide (toLowerCase key = "arrowup")
     then [DropdownMessage FocusPreviousItem; PreventDefault]
     else []).
Proof.
  intros Ht He Hx. unfold handleKeyDown.
  repeat case_bool_decide; try done; simpl in *; try done.
Qed.

Lemma handleKeyDown_other_keys_witness :
  handleKeyDown "ArrowDown" showingResults =
    (Return tt, showingResults,
     [DropdownMessage FocusNextItem; PreventDefault]) /\
  handleKeyDown "a" showingResults = (Return tt, showingResults, []).
Proof.
  split.
  - apply (handleKeyDown_other_keys showingResults "ArrowDown"); discriminate.
  - apply (handleKeyDown_other_keys showingResults "a"); discriminate.
Defined.

(** Once the dropdown is closed, by the escape key or by [closeDropdown],
    a tab or enter key selects nothing and sends nothing. *)
Theorem key_after_close (c : SkyAutocompleteComponent) (key : string) :
  toLowerCase key = "tab" \/ toLowerCase key = "enter" ->
  (handleKeyDown "Escape" ;; handleKeyDown key) c =
    (Return tt, set_searchResults [] c,
     [DropdownMessage Close; MarkForCheck; PreventDefault; StopPropagation])
  /\
  (closeDropdown ;; handleKeyDown key) c =
    (Return tt, set_searchResults [] c,
     [DropdownMessage Close; MarkForCheck]).
Proof.
  intros Hkey.
  pose proof (key_without_results (set_searchResults [] c) key eq_refl Hkey)
    as H.
  split; unfold mbind, M_bind, bind; simpl; by rewrite H.
Qed.

Lemma key_after_close_witness :
  (handleKeyDown "Escape" ;; handleKeyDown "Enter") showingResults =
    (Return tt, set_searchResults [] showingResults,
     [DropdownMessage Close; MarkForCheck; PreventDefault; StopPropagation]).
Proof. apply (key_after_close showingResults "Enter"). by right. Defined.

(** A second tab or enter key adds nothing to the first: a selection is
    made, and announced, once. *)
Theorem key_twice (c : SkyAutocompleteComponent) (key1 key2 : string) :
  toLowerCase key1 = "tab" \/ toLowerCase key1 = "enter" ->
  toLowerCase key2 = "tab" \/ toLowerCase key2 = "enter" ->
  (handleKeyDown key1 ;; handleKeyDown key2) c = handleKeyDown key1 c.
Proof.
  intros H1 H2. unfold mbind, M_bind, bind.
  destruct (hasSearchResults c) eqn:Hhas.
  - rewrite (key_with_results c key1 Hhas H1).
    destruct (default [] (searchResults c) !! searchResultsIndex c) as [r|];
      [|done].
    destruct (inputDirective c) as [d|]; [|done].
    rewrite key_without_results by done. by rewrite app_nil_r.
  - rewrite !key_without_results by done. done.
Qed.

Lemma key_twice_witness :
  (handleKeyDown "Enter" ;; handleKeyDown "Tab") showingResults =
    handleKeyDown "Enter" showingResults.
Proof. apply key_twice; [by right | by left]. Defined.



(** Nothing resets the index when a search is fulfilled: with fewer results
    than the index asks for, a tab or enter key after the fulfilment raises
    a TypeError, the results stay on display and nothing more is sent. *)
Theorem key_with_stale_index (c : SkyAutocompleteComponent)
    (results : list record) (key : string) :
  results <> [] ->
  (length results <= searchResultsIndex c)%nat ->
  toLowerCase key = "tab" \/ toLowerCase key = "enter" ->
  (searchFulfilled results ;; handleKeyDown key) c =
    (Throw TypeError, set_searchResults results c,
     [DropdownMessage Open; MarkForCheck]).
Proof.
  intros Hne Hlen Hkey.
  assert (handleKeyDown key (set_searchResults results c) =
            (Throw TypeError, set_searchResults results c, [])) as H.
  { rewrite key_with_results; [|..|done].
    - simpl. by rewrite lookup_ge_None_2.
    - unfold hasSearchResults. simpl. by destruct results. }
  unfold mbind, M_bind, bind, searchFulfilled, openDropdown,
    sendDropdownMessage, modify, emit. simpl. by rewrite H.
Qed.

Lemma key_with_stale_index_witness :
  (searchFulfilled [bob] ;; handleKeyDown "Enter") showingResults =
    (Throw TypeError, set_searchResults [bob] showingResults,
     [DropdownMessage Open; MarkForCheck]).
Proof.
  apply (key_with_stale_index showingResults [bob] "Enter").
  - discriminate.
  - simpl. lia.
  - by right.
Defined.



(** After a selection whose descriptor is a string, the text change that
    reports that very string starts no search. *)
Theorem searchTextChanged_after_selection (c : SkyAutocompleteComponent)
    (result : record) (d : SkyAutocompleteInputDirective) (label : string) :
  default [] (searchResults c) !! searchResultsIndex c = Some result ->
  inputDirective c = Some d ->
  get result (descriptorProperty c) = VStr label ->
  ~ blank label ->
  (selectActiveSearchResult ;; searchTextChanged (Some label)) c =
    selectActiveSearchResult c.
Proof.
  intros Hres Hd Hlabel Hb. unfold mbind, M_bind, bind.
  rewrite (selectActiveSearchResult_some c result d Hres Hd), Hlabel.
  rewrite searchTextChanged_idle; [by rewrite app_nil_r | done |].
  simpl. unfold strictEquals. rewrite bool_decide_eq_true_2 by done.
  apply andb_false_r.
Qed.

Lemma searchTextChanged_after_selection_witness :
  (selectActiveSearchResult ;; searchTextChanged (Some "Anna")) showingResults
    = selectActiveSearchResult showingResults.
Proof.
  apply (searchTextChanged_after_selection showingResults anna boundInput
           "Anna"); try reflexivity.
  intros H. apply allSpace_blank in H. discriminate H.
Defined.



End AutocompleteSequences.

(** ** More on the scrollable parent and on loading *)

Section ScrollMore.
Import InfiniteScroll ScrollFixtures.

(** What the walk has gone through when it delivers.  A parent it returns
    scrolls, no ancestor nearer than it does, and neither the trigger nor any
    of those nearer ancestors stops the walk.  When it returns the window,
    the flag is set, and the walk was stopped by the first element, from the
    trigger up, that is [document.body] or has a [length] of zero or less,
    none of the ancestors up to and including that one scrolling. *)
Theorem getScrollableParent_result (e : element) (flag : bool)
    (v : scrollable) (f : bool) :
  getScrollableParent e flag = Ok (v, f) ->
  match v with
  | Parent p =>
      f = flag /\ scrolls p = true /\
      exists before after,
        ancestors e = before ++ p :: after /\
        (forall x, x ∈ before -> scrolls x = false) /\
        (forall x, x ∈ e :: before -> stopsWalk x = false)
  | Window =>
      f = true /\
      exists passed x after,
        e :: ancestors e = passed ++ x :: after /\
        stopsWalk x = true /\
        (forall y, y ∈ passed -> stopsWalk y = false) /\
        (forall i y, (passed ++ [x]) !! S i = Some y -> scrolls y = false)
  end.
Proof.
  revert e v f. apply (element_chain_ind (fun e => forall v f,
    getScrollableParent e flag = Ok (v, f) ->
    match v with
    | Parent p =>
        f = flag /\ scrolls p = true /\
        exists before after,
          ancestors e = before ++ p :: after /\
          (forall x, x ∈ before -> scrolls x = false) /\
          (forall x, x ∈ e :: before -> stopsWalk x = false)
    | Window =>
        f = true /\
        exists passed x after,
          e :: ancestors e = passed ++ x :: after /\
          stopsWalk x = true /\
          (forall y, y ∈ passed -> stopsWalk y = false) /\
          (forall i y, (passed ++ [x]) !! S i = Some y -> scrolls y = false)
    end)).
  - intros l b o v f. simpl.
    destruct (stopsWalk (Element l b o None)) eqn:Hs; [|done].
    intros [= <- <-]. split; [done|].
    exists [], (Element l b o None), []. split; [done|]. split; [done|].
    split; [|done]. intros y Hy. by apply elem_of_nil in Hy.
  - intros l b o p IH v f. simpl.
    destruct (stopsWalk (Element l b o (Some p))) eqn:Hs.
    { intros [= <- <-]. split; [done|].
      exists [], (Element l b o (Some p)), (p :: ancestors p).
      split; [done|]. split; [done|].
      split; [|done]. intros y Hy. by apply elem_of_nil in Hy. }
    destruct (scrolls p) eqn:Hp.
    { intros [= <- <-]. split; [done|]. split; [done|].
      exists [], (ancestors p). split; [done|]. split.
      - intros x Hx. by apply elem_of_nil in Hx.
      - intros x Hx. apply list_elem_of_singleton in Hx. by subst. }
    intros Hrun. specialize (IH v f Hrun). destruct v as [|q].
    + destruct IH
        as (-> & passed & x & after & Hchain & Hx & Hpassed & Hscroll).
      split; [done|].
      exists (Element l b o (Some p) :: passed), x, after.
      split; [|split; [|split]].
      * simpl. by rewrite Hchain.
      * done.
      * intros y [->|Hy]%elem_of_cons; [done | by apply Hpassed].
      * intros i y Hy. simpl in Hy. destruct i as [|i].
        -- assert ((passed ++ [x]) !! 0%nat = Some p) as H0.
           { destruct passed as [|z passed]; simpl in *; congruence. }
           rewrite H0 in Hy. by injection Hy as <-.
        -- by apply (Hscroll i).
    + destruct IH as (-> & Hq & before & after & Hanc & Hbefore & Hstop).
      split; [done|]. split; [done|].
      exists (p :: before), after. split; [|split].
      * simpl. by rewrite Hanc.
      * intros x [->|Hx]%elem_of_cons; [done | by apply Hbefore].
      * intros x [->|Hx]%elem_of_cons; [done | by apply Hstop].
Qed.

Lemma getScrollableParent_result_witness :
  exists before after,
    ancestors triggerInWrapper = before ++ scroller :: after /\
    (forall x, x ∈ before -> scrolls x = false) /\
    (forall x, x ∈ triggerInWrapper :: before -> stopsWalk x = false).
Proof.
  apply (getScrollableParent_result triggerInWrapper false (Parent scroller)
           false eq_refl).
Defined.

Lemma getScrollableParent_off_top (e : element) (flag : bool) :
  getScrollableParent e flag = TypeError <->
  (forall x, x ∈ e :: ancestors e -> stopsWalk x = false) /\
  (forall p, p ∈ ancestors e -> scrolls p = false).
Proof.
  revert e. apply (element_chain_ind (fun e =>
    getScrollableParent e flag = TypeError <->
    (forall x, x ∈ e :: ancestors e -> stopsWalk x = false) /\
    (forall p, p ∈ ancestors e -> scrolls p = false))).
  - intros l b o. simpl.
    destruct (stopsWalk (Element l b o None)) eqn:Hs.
    + split; [done|]. intros [H _]. rewrite H in Hs; [done | by left].
    + split; [intros _|done]. split.
      * intros x Hx. apply list_elem_of_singleton in Hx. by subst.
      * intros p Hp. by apply elem_of_nil in Hp.
  - intros l b o p IH. simpl.
    destruct (stopsWalk (Element l b o (Some p))) eqn:Hs.
    { split; [done|]. intros [H _]. rewrite H in Hs; [done | by left]. }
    destruct (scrolls p) eqn:Hp.
    { split; [done|]. intros [_ H]. rewrite H in Hp; [done | by left]. }
    rewrite IH. split.
    + intros [Hstop Hscroll]. split.
      * intros x [->|Hx]%elem_of_cons; [done | by apply Hstop].
      * intros q [->|Hq]%elem_of_cons; [done | by apply Hscroll].
    + intros [Hstop Hscroll]. split.
      * intros x Hx. apply Hstop. by right.
      * intros q Hq. apply Hscroll. by right.
Qed.

(** The walk fails, with a TypeError, exactly when it runs off the top of
    the chain: no element from the trigger up stops it and no ancestor
    scrolls. *)
Theorem getScrollableParent_error (e : element) (flag : bool) :
  getScrollableParent e flag = TypeError <->
  (forall x, x ∈ e :: ancestors e -> stopsWalk x = false) /\
  (forall p, p ∈ ancestors e -> scrolls p = false).
Proof. apply getScrollableParent_off_top. Qed.

Lemma getScrollableParent_error_witness :
  getScrollableParent (Element None false "auto" (Some html)) true = TypeError.
Proof.
  apply (getScrollableParent_error
           (Element None false "auto" (Some html)) true).
  split.
  - intros x Hx. apply list_elem_of_In in Hx. simpl in Hx.
    destruct Hx as [<-|[<-|[]]]; reflexivity.
  - intros p Hp. apply list_elem_of_In in Hp. simpl in Hp.
    destruct Hp as [<-|[]]. reflexivity.
Defined.

(** Below [document.body] the set-up always succeeds, whatever the chain
    holds otherwise: the component starts out not loading, with the
    trigger's offset on record, and with the window flag set exactly when
    the scrollable parent is the window. *)
Theorem ngOnInit_below_body (more : bool) (e : element) (d : Dom) :
  (exists x, x ∈ e :: ancestors e /\ isDocumentBody x = true) ->
  exists c,
    ngOnInit more e d = Ok c /\
    hasMore c = more /\
    isLoading c = false /\
    elementPosition c = offsetTop d /\
    (scrollableParentIsWindow c = true <-> scrollableParentEl c = Window).
Proof.
  intros (x & Hx & Hbody).
  destruct (ngOnInit more e d) as [c|] eqn:E.
  - exists c. destruct (ngOnInit_parent more e d c E) as (Hl & Hpos & Hw).
    split; [done|]. split; [|done].
    unfold ngOnInit in E.
    destruct (getScrollableParent e false) as [[v f]|]; [|done].
    by injection E as <-.
  - exfalso. unfold ngOnInit in E.
    destruct (getScrollableParent e false) as [[v f]|] eqn:G; [done|].
    apply getScrollableParent_off_top in G as [Hstop _].
    specialize (Hstop x Hx). unfold stopsWalk in Hstop.
    rewrite Hbody, orb_true_r in Hstop. done.
Qed.

Lemma ngOnInit_below_body_witness :
  exists c,
    ngOnInit true triggerInForm atInit = Ok c /\
    hasMore c = true /\
    isLoading c = false /\
    elementPosition c = 0 /\
    (scrollableParentIsWindow c = true <-> scrollableParentEl c = Window).
Proof.
  apply (ngOnInit_below_body true triggerInForm atInit).
  exists body. split; [|reflexivity].
  apply list_elem_of_In. simpl. tauto.
Defined.

Lemma run_cons c e es :
  run c (e :: es) =
    (fst (run (fst (handle c e)) es),
     snd (handle c e) ++ snd (run (fst (handle c e)) es)).
Proof.
  change (run c (e :: es)) with
    (let '(c1, out1) := handle c e in
     let '(c2, out2) := run c1 es in (c2, out1 ++ out2)).
  destruct (handle c e) as [c1 out1]. simpl.
  by destruct (run c1 es) as [c2 out2].
Qed.

(** While [hasMore] is false and is not set to true, no load is requested,
    whatever is scrolled or inserted. *)
Theorem no_load_without_more (c : SkyInfiniteScrollComponent)
    (es : list event) :
  hasMore c = false ->
  HasMoreInput true ∉ es ->
  OnLoadEmit ∉ snd (run c es).
Proof.
  revert c. induction es as [|e es IH]; intros c Hm Hes.
  - simpl. apply not_elem_of_nil.
  - rewrite run_cons. simpl. rewrite elem_of_app. intros [H|H].
    + destruct e as [d|d|b]; simpl in H.
      * unfold startInfiniteScrollLoad in H. rewrite Hm in H. simpl in H.
        destruct (isLoading c && negb (offsetTop d =? elementPosition c));
          simpl in H; apply list_elem_of_In in H; simpl in H;
          intuition discriminate.
      * unfold onDOMNodeInserted in H.
        destruct (isLoading c && negb (offsetTop d =? elementPosition c));
          simpl in H; apply list_elem_of_In in H; simpl in H;
          intuition discriminate.
      * by apply elem_of_nil in H.
    + revert H. apply IH.
      * destruct e as [d|d|b]; simpl.
        -- unfold startInfiniteScrollLoad. rewrite Hm. simpl.
           by destruct (isLoading c && negb (offsetTop d =? elementPosition c)).
        -- unfold onDOMNodeInserted.
           by destruct (isLoading c && negb (offsetTop d =? elementPosition c)).
        -- destruct b; [|done]. exfalso. apply Hes. by left.
      * intros H. apply Hes. by right.
Qed.

Lemma no_load_without_more_witness :
  OnLoadEmit ∉
    snd (run (set_hasMore false windowed)
           [Scroll later; DOMNodeInserted grown; Scroll grown]).
Proof.
  apply no_load_without_more; [reflexivity|].
  intros H. apply list_elem_of_In in H. simpl in H. intuition discriminate.
Defined.

(** Only a scroll event requests a load: insertions and changes of
    [hasMore] alone never do. *)
Theorem no_load_without_scroll (c : SkyInfiniteScrollComponent)
    (es : list event) :
  (forall d, Scroll d ∉ es) ->
  OnLoadEmit ∉ snd (run c es).
Proof.
  revert c. induction es as [|e es IH]; intros c Hes.
  - simpl. apply not_elem_of_nil.
  - rewrite run_cons. simpl. rewrite elem_of_app. intros [H|H].
    + destruct e as [d|d|b]; simpl in H.
      * apply (Hes d). by left.
      * unfold onDOMNodeInserted in H.
        destruct (isLoading c && negb (offsetTop d =? elementPosition c));
          simpl in H; apply list_elem_of_In in H; simpl in H;
          intuition discriminate.
      * by apply elem_of_nil in H.
    + revert H. apply IH. intros d Hd. apply (Hes d). by right.
Qed.

Lemma no_load_without_scroll_witness :
  OnLoadEmit ∉
    snd (run windowed [DOMNodeInserted later; HasMoreInput true;
                       DOMNodeInserted grown]).
Proof.
  apply no_load_without_scroll.
  intros d H. apply list_elem_of_In in H. simpl in H. intuition discriminate.
Defined.

(** A component that is loading stays loading, and signals nothing, for as
    long as every scroll and insertion event finds the trigger at the
    recorded position: only a move of the trigger re-arms it. *)
Theorem loading_until_moved (c : SkyInfiniteScrollComponent)
    (es : list event) :
  isLoading c = true ->
  (forall d, Scroll d ∈ es \/ DOMNodeInserted d ∈ es ->
             offsetTop d = elementPosition c) ->
  isLoading (fst (run c es)) = true /\
  elementPosition (fst (run c es)) = elementPosition c /\
  snd (run c es) = [].
Proof.
  revert c. induction es as [|e es IH]; intros c Hl Hes; [done|].
  rewrite run_cons. simpl.
  assert (exists b, handle c e = (set_hasMore b c, [])) as [b Hh].
  { destruct e as [d|d|b]; simpl.
    - unfold startInfiniteScrollLoad.
      rewrite Hl, andb_false_r, (Hes d), Z.eqb_refl by (left; by left).
      exists (hasMore c). by destruct c.
    - unfold onDOMNodeInserted.
      rewrite Hl, (Hes d), Z.eqb_refl by (right; by left).
      exists (hasMore c). by destruct c.
    - by exists b. }
  rewrite Hh. simpl. apply (IH (set_hasMore b c)); [done|].
  intros d [Hd|Hd]; apply Hes; [left|right]; by right.
Qed.

Lemma loading_until_moved_witness :
  snd (run loading [Scroll later; DOMNodeInserted later; Scroll later]) = [].
Proof.
  apply (loading_until_moved loading); [reflexivity|].
  intros d [H|H]; apply list_elem_of_In in H; simpl in H;
    destruct H as [H|[H|[H|[]]]]; try discriminate H;
    injection H as <-; reflexivity.
Defined.

(** The recorded position only moves at the end of a load: an event that
    changes [elementPosition] is a scroll or insertion event met while
    loading, it records the offset it finds and clears [isLoading]. *)
Theorem elementPosition_moves (c : SkyInfiniteScrollComponent) (e : event) :
  elementPosition (fst (handle c e)) <> elementPosition c ->
  isLoading c = true /\
  isLoading (fst (handle c e)) = false /\
  exists d, (e = Scroll d \/ e = DOMNodeInserted d) /\
            elementPosition (fst (handle c e)) = offsetTop d.
Proof.
  destruct e as [d|d|b]; simpl.
  - unfold startInfiniteScrollLoad.
    destruct (hasMore c && negb (isLoading c) && infiniteScrollInView c d);
      [done|].
    destruct (isLoading c); simpl; [|done].
    destruct (negb (offsetTop d =? elementPosition c)); simpl; [|done].
    intros _. repeat split. eauto.
  - unfold onDOMNodeInserted.
    destruct (isLoading c); simpl; [|done].
    destruct (negb (offsetTop d =? elementPosition c)); simpl; [|done].
    intros _. repeat split. eauto.
  - done.
Qed.

Lemma elementPosition_moves_witness :
  isLoading loading = true /\
  isLoading (fst (handle loading (Scroll grown))) = false /\
  exists d, (Scroll grown = Scroll d \/ Scroll grown = DOMNodeInserted d) /\
            elementPosition (fst (handle loading (Scroll grown))) = offsetTop d.
Proof.
  apply (elementPosition_moves loading (Scroll grown)). discriminate.
Defined.

End ScrollMore.
